(** * caide C++ inliner: the optimizer stage (src/optimizer.cpp)

    A shallow embedding of the driver of the optimizer stage:
    - the reachability loop of [OptimizerConsumer::HandleTranslationUnit]
      over the dependency graph [srcInfo.uses];
    - the declaration indexer [BuildNonImplicitDeclMap];
    - the phase sequence of [HandleTranslationUnit], with the forced parsing
      of late-parsed templates;
    - [OptimizerConsumer::getResult], [ErrorCollector] and
      [Optimizer::doOptimize].

    Pointers to clang declarations are modelled by their address, the
    standard containers by stdpp's finite sets and maps. *)

From Stdlib Require Import ZArith Ascii String.
From stdpp Require Import base tactics option list list_numbers sets fin_sets gmap strings.

Set Default Proof Using "Type".
Set Warnings "-clear-no-such-hyp,-register-all".

(** ** Declarations and the dependency graph *)

(** A [clang::Decl*]: the address of the node. [std::set<Decl*>] iterates in
    increasing address order. *)
Definition Decl : Type := positive.

(** Modelled from the spec: the type of [SourceInfo::uses], declared in
    SourceInfo.h, which is not part of src/. An adjacency mapping from a
    declaration to the set of declarations it references, as the loop uses
    it: subscripted by a declaration, the mapped value iterated as a range of
    declarations. *)
Abbreviation References := (gmap Decl (gset Decl)).

Module Reachability.

(** The value a lookup [uses[decl]] yields: the stored set, or a fresh empty
    set when the key is absent. *)
Definition successors (uses : References) (decl : Decl) : gset Decl :=
  default ∅ (uses !! decl).

(** [std::map::operator[]]: yields the mapped set and leaves a
    default-constructed entry behind when the key was absent. *)
Definition subscript (uses : References) (decl : Decl) : gset Decl * References :=
  (successors uses decl, <[decl := successors uses decl]> uses).

(** State of the loop: the local [queue], the local [used] and the map
    [srcInfo.uses], which the subscript operator may extend. *)
Record BfsState : Type := mkBfs {
  queue : gset Decl;
  used : gset Decl;
  uses : References
}.

(** [*queue.begin()]: the least address in the set, if any. *)
Definition queue_begin (q : gset Decl) : option Decl :=
  match elements q with
  | [] => None
  | d :: ds => Some (foldr Pos.min d ds)
  end.

(** One iteration of the [while] body once [decl] has been taken:
<<
    queue.erase(queue.begin());
    if (used.insert(decl).second)
        queue.insert(srcInfo.uses[decl].begin(), srcInfo.uses[decl].end());
>>
    [used.insert(decl).second] is true exactly when [decl] was not yet a
    member. The map is subscripted twice, for [begin()] and for [end()] of
    the same mapped set. *)
Definition visit (decl : Decl) (s : BfsState) : BfsState :=
  let q := queue s ∖ {[decl]} in
  if decide (decl ∈ used s) then
    {| queue := q; used := used s; uses := uses s |}
  else
    let '(range, uses1) := subscript (uses s) decl in
    let '(_, uses2) := subscript uses1 decl in
    {| queue := q ∪ range; used := used s ∪ {[decl]}; uses := uses2 |}.

(** The declarations newly inserted into [used] by one iteration. *)
Definition marked_by (decl : Decl) (s : BfsState) : list Decl :=
  if decide (decl ∈ used s) then [] else [decl].

(** The loop [while (!queue.empty()) { ... }]. It returns the final state
    together with the declarations in the order in which [used.insert]
    reported a new member; [None] when [fuel] iterations do not empty the
    queue. *)
Fixpoint bfs_loop (fuel : nat) (s : BfsState) : option (list Decl * BfsState) :=
  match queue_begin (queue s) with
  | None => Some ([], s)
  | Some decl =>
      match fuel with
      | O => None
      | S fuel' =>
          '(marks, s') ← bfs_loop fuel' (visit decl s);
          Some (marked_by decl s ++ marks, s')
      end
  end.

(** The same loop body driven by an arbitrary processing order: at each
    iteration the next element of [order] is taken from the queue. The order
    is refused when it names a declaration that is not in the queue. *)
Fixpoint run_order (order : list Decl) (s : BfsState) : option BfsState :=
  match order with
  | [] => Some s
  | decl :: rest =>
      if decide (decl ∈ queue s) then run_order rest (visit decl s) else None
  end.

(** The queue as the loop first sees it:
<<
    for (Decl* decl : srcInfo.declsToKeep)
        queue.insert(decl->getCanonicalDecl());
>> *)
Definition initial_queue (getCanonicalDecl : Decl → Decl)
    (declsToKeep : gset Decl) : gset Decl :=
  set_fold (λ decl q, {[getCanonicalDecl decl]} ∪ q) ∅ declsToKeep.

Definition initial_state (getCanonicalDecl : Decl → Decl)
    (uses : References) (declsToKeep : gset Decl) : BfsState :=
  {| queue := initial_queue getCanonicalDecl declsToKeep; used := ∅; uses := uses |}.

(** Every declaration that occurs as the target of an edge. *)
Definition targets (uses : References) : gset Decl :=
  ⋃ (map_to_list uses).*2.

(** Cost of expanding the declarations of [X]: one iteration each, plus one
    later iteration for each successor put into the queue. *)
Definition expansion_cost (uses : References) (X : gset Decl) : nat :=
  sum_list_with (λ d, 1 + size (successors uses d)) (elements X).

(** A number of iterations that always suffices: linear in the number of
    nodes and edges of the graph. *)
Definition bfs_fuel (uses : References) (q : gset Decl) : nat :=
  size q + expansion_cost uses (q ∪ targets uses).

(** Phase 2 of [HandleTranslationUnit]. *)
Definition reachability_phase (getCanonicalDecl : Decl → Decl)
    (uses : References) (declsToKeep : gset Decl) : option (list Decl * BfsState) :=
  let s := initial_state getCanonicalDecl uses declsToKeep in
  bfs_loop (bfs_fuel uses (queue s)) s.

(** *** Graph reachability, the specification *)

Definition edge (uses : References) (a b : Decl) : Prop := b ∈ successors uses a.

Definition reachable (uses : References) (roots : gset Decl) (d : Decl) : Prop :=
  ∃ r, r ∈ roots ∧ rtc (edge uses) r d.

Definition canonical_roots (getCanonicalDecl : Decl → Decl)
    (declsToKeep : gset Decl) : gset Decl :=
  set_map getCanonicalDecl declsToKeep.

(** *** A small translation unit

    [main] (address 1) calls [f] (2) and [g] (3); [f] calls [g]; [g] calls
    [main] (a cycle) and itself (a self-loop); [h] (4) is recursive and
    unused. Address 5 is a redeclaration of [main]. *)

Definition example_uses : References :=
  {[ 1%positive := {[ 2%positive; 3%positive ]};
     2%positive := {[ 3%positive ]};
     3%positive := {[ 1%positive; 3%positive ]};
     4%positive := {[ 4%positive ]} ]}.

Definition example_canonical (d : Decl) : Decl :=
  if decide (d = 5%positive) then 1%positive else d.

Definition example_declsToKeep : gset Decl := {[ 5%positive ]}.

Definition example_final : BfsState :=
  {| queue := ∅;
     used := {[ 1%positive; 2%positive; 3%positive ]};
     uses := example_uses |}.

End Reachability.

Module ReachabilityInv.
Import Reachability.

(** The loop invariant, relative to the graph [g] and the roots the loop
    started from. *)
Record bfs_inv (g : References) (roots : gset Decl) (s : BfsState) : Prop := mkInv {
  inv_graph : ∀ d, successors (uses s) d = successors g d;
  inv_roots : roots ⊆ used s ∪ queue s;
  inv_closed : ∀ d, d ∈ used s → successors g d ⊆ used s ∪ queue s;
  inv_sound : ∀ d, d ∈ used s ∪ queue s → reachable g roots d
}.

(** The iterations still to come are bounded by this measure, for [V] a set
    of nodes that contains the queue and every edge target. *)
Definition remaining (g : References) (V : gset Decl) (s : BfsState) : nat :=
  size (queue s) + expansion_cost g (V ∖ used s).

End ReachabilityInv.


(** ** The declaration tree and the declaration indexer *)

Module Ast.
Section Ast.
Context {Key : Type}.

(** What the optimizer reads of a [clang::Decl]: its address, whether it is
    implicit ([Decl::isImplicit]) and the key [SourceInfo::makeKey] computes
    for it. *)
Record DeclInfo : Type := mkDecl {
  decl_addr : Decl;
  isImplicit : bool;
  makeKey : Key
}.

(** A node of the declaration tree: the declarations written inside it (the
    members of its declaration context) and, for a template, the
    specializations instantiated from it. *)
Inductive DeclNode : Type :=
| Node (info : DeclInfo) (members : list DeclNode) (instantiations : list DeclNode).

(** The nodes that can be reached from the root through members only and
    without passing an implicit node: the declarations written in the
    source. *)
Fixpoint written_decls (n : DeclNode) : list DeclInfo :=
  match n with
  | Node info members _ =>
      if isImplicit info then []
      else info :: flat_map written_decls members
  end.

(** Every node of the tree, implicit and instantiated ones included. *)
Fixpoint all_decls (n : DeclNode) : list DeclInfo :=
  match n with
  | Node info members instantiations =>
      info :: flat_map all_decls members ++ flat_map all_decls instantiations
  end.

(** The hooks a visitor class gives to [clang::RecursiveASTVisitor], acting
    on a visitor state [St]. *)
Record ASTVisitor (St : Type) : Type := mkVisitor {
  shouldVisitImplicitCode : bool;
  shouldVisitTemplateInstantiations : bool;
  shouldWalkTypesOfTypeLocs : bool;
  VisitDecl : DeclInfo → St → bool * St
}.
Arguments shouldVisitImplicitCode {St} _.
Arguments shouldVisitTemplateInstantiations {St} _.
Arguments shouldWalkTypesOfTypeLocs {St} _.
Arguments VisitDecl {St} _ _ _.

Section Traversal.
Context {St : Type}.
Variable v : ASTVisitor St.

(** Modelled from the spec: the traversal engine
    [clang::RecursiveASTVisitor::TraverseDecl], which belongs to the front
    end and is not part of src/. An implicit node is passed over, with all
    that is below it, unless the visitor asks for implicit code; a visited
    node is handed to [VisitDecl], then its members are traversed, and the
    instantiations of a template only when the visitor asks for them. A
    [false] from [VisitDecl] aborts the traversal. *)
Fixpoint TraverseDecl (n : DeclNode) (st : St) : bool * St :=
  match n with
  | Node info members instantiations =>
      if negb (shouldVisitImplicitCode v) && isImplicit info then (true, st)
      else
        let traverse_all :=
          fix traverse_all (ns : list DeclNode) (st : St) : bool * St :=
            match ns with
            | [] => (true, st)
            | n' :: ns' =>
                let '(continue, st') := TraverseDecl n' st in
                if continue then traverse_all ns' st' else (false, st')
            end in
        let '(continue, st1) := VisitDecl v info st in
        if negb continue then (false, st1)
        else
          let '(continue, st2) := traverse_all members st1 in
          if negb continue then (false, st2)
          else if shouldVisitTemplateInstantiations v
               then traverse_all instantiations st2
               else (true, st2)
  end.

(** The traversal of a list of nodes, as [TraverseDecl] does it. *)
Fixpoint TraverseDecls (ns : list DeclNode) (st : St) : bool * St :=
  match ns with
  | [] => (true, st)
  | n :: ns' =>
      let '(continue, st') := TraverseDecl n st in
      if continue then TraverseDecls ns' st' else (false, st')
  end.

End Traversal.

(** [ASTContext]: the root of the tree and the canonical declaration of
    every declaration. *)
Record ASTContext : Type := mkContext {
  getTranslationUnitDecl : DeclNode;
  getCanonicalDecl : Decl → Decl
}.

End Ast.
Arguments DeclInfo : clear implicits.
Arguments DeclNode : clear implicits.
Arguments ASTVisitor : clear implicits.
Arguments ASTContext : clear implicits.
Arguments shouldVisitImplicitCode {Key St} _.
Arguments shouldVisitTemplateInstantiations {Key St} _.
Arguments shouldWalkTypesOfTypeLocs {Key St} _.
Arguments VisitDecl {Key St} _ _ _.
End Ast.

Module Source.
Section Source.
Context {Key : Type} `{Countable Key}.

(** Modelled from the spec: the structure [SourceInfo], declared in
    SourceInfo.h, which is not part of src/. Its members as optimizer.cpp
    uses them: the dependency graph, the root set, the list of deferred
    bodies, and the mapping from the key of a source location to the
    declaration written there. *)
Record SourceInfo : Type := mkSourceInfo {
  uses : References;
  declsToKeep : gset Decl;
  delayedParsedFunctions : list Decl;
  nonImplicitDecls : gmap Key Decl
}.

(** A default-constructed [SourceInfo]. *)
Definition empty_SourceInfo : SourceInfo :=
  {| uses := ∅; declsToKeep := ∅; delayedParsedFunctions := []; nonImplicitDecls := ∅ |}.

(** [emplace] on that mapping: the entry is added unless the key is
    taken. *)
Definition emplace (key : Key) (decl : Decl) (m : gmap Key Decl) : gmap Key Decl :=
  match m !! key with
  | Some _ => m
  | None => <[key := decl]> m
  end.

End Source.
Arguments SourceInfo Key {_ _}.
End Source.

Module Indexer.
Import Ast Source.
Section Indexer.
Context {Key : Type} `{Countable Key}.

(** [BuildNonImplicitDeclMap::VisitDecl]:
<<
    auto key = SourceInfo::makeKey(decl);
    srcInfo.nonImplicitDecls.emplace(std::move(key), decl);
    return true;
>> *)
Definition BuildNonImplicitDeclMap_VisitDecl (decl : DeclInfo Key)
    (srcInfo : SourceInfo Key) : bool * SourceInfo Key :=
  let key := makeKey decl in
  (true, {| uses := uses srcInfo;
            declsToKeep := declsToKeep srcInfo;
            delayedParsedFunctions := delayedParsedFunctions srcInfo;
            nonImplicitDecls := emplace key (decl_addr decl) (nonImplicitDecls srcInfo) |}).

(** The visitor class [BuildNonImplicitDeclMap]; its state is the
    [SourceInfo] it holds a reference to. *)
Definition BuildNonImplicitDeclMap : ASTVisitor Key (SourceInfo Key) :=
  {| shouldVisitImplicitCode := false;
     shouldVisitTemplateInstantiations := false;
     shouldWalkTypesOfTypeLocs := false;
     VisitDecl := BuildNonImplicitDeclMap_VisitDecl |}.

(** Phase 0 of [HandleTranslationUnit]:
    [visitor.TraverseDecl(Ctx.getTranslationUnitDecl())]. *)
Definition index_declarations (Ctx : ASTContext Key) (srcInfo : SourceInfo Key)
    : SourceInfo Key :=
  (TraverseDecl BuildNonImplicitDeclMap (getTranslationUnitDecl Ctx) srcInfo).2.

(** An entry of the map after a traversal was there before, or is that of a
    written declaration among [nodes]. *)
Definition records_written (nodes : list (DeclInfo Key))
    (before after : SourceInfo Key) : Prop :=
  ∀ key d,
    nonImplicitDecls after !! key = Some d →
    nonImplicitDecls before !! key = Some d ∨
    ∃ info, info ∈ nodes ∧ isImplicit info = false ∧
            decl_addr info = d ∧ makeKey info = key.

End Indexer.

(** A translation unit: [main] (1) with a redeclaration (5), a class
    template (2) with an implicit member (6) and an instantiation (7), and
    an implicit builtin declaration (8). Keys are source offsets. *)
Definition example_tu : DeclNode nat :=
  Node (mkDecl 9%positive false 0)
    [ Node (mkDecl 8%positive true 0) [] [];
      Node (mkDecl 5%positive false 10) [] [];
      Node (mkDecl 2%positive false 20)
        [ Node (mkDecl 6%positive true 20) [] [] ]
        [ Node (mkDecl 7%positive false 20) [] [] ];
      Node (mkDecl 1%positive false 40) [] [] ]
    [].

Definition example_Ctx : ASTContext nat :=
  {| getTranslationUnitDecl := example_tu;
     getCanonicalDecl := Reachability.example_canonical |}.

End Indexer.

(** ** The consumer: [OptimizerConsumer] *)

Module Consumer.
Import Ast Source.
Section Consumer.
Context {Key : Type} `{Countable Key} {Ext : Type}.

(** The state of the front end and of the collaborating passes, as far as
    the consumer can observe it: the diagnostics engine's
    suppress-all-diagnostics flag, and the rest (Sema, the rewriter with its
    scheduled edits, the preprocessor callbacks, the source manager). *)
Record Clang : Type := mkClang {
  SuppressAllDiagnostics : bool;
  rest : Ext
}.

(** The passes and front-end services [HandleTranslationUnit] calls. Their
    code is outside optimizer.cpp; each may change the front-end state. *)
Record Collaborators : Type := mkCollaborators {
  (** [DependenciesCollector::TraverseDecl], filling [srcInfo] *)
  DependenciesCollector_TraverseDecl :
    DeclNode Key → gset string → SourceInfo Key → Clang → SourceInfo Key * Clang;
  (** [sema.LateTemplateParser(sema.OpaqueParser, *LateParsedTemplateMap[f])] *)
  LateTemplateParser : Decl → Clang → Clang;
  (** [OptimizerVisitor::TraverseDecl], reading [used], filling [removedDecls] *)
  OptimizerVisitor_TraverseDecl :
    DeclNode Key → gset Decl → gset Decl → Clang → gset Decl * Clang;
  (** [OptimizerVisitor::Finalize] *)
  OptimizerVisitor_Finalize :
    ASTContext Key → gset Decl → gset Decl → Clang → gset Decl * Clang;
  (** [MergeNamespacesVisitor::TraverseDecl], reading [removedDecls] *)
  MergeNamespacesVisitor_TraverseDecl : DeclNode Key → gset Decl → Clang → Clang;
  (** [RemoveInactivePreprocessorBlocks::Finalize] *)
  ppCallbacks_Finalize : Clang → Clang;
  (** [SmartRewriter::applyChanges] *)
  applyChanges : Clang → Clang;
  (** [smartRewriter->getRewriteBufferFor(sourceManager.getMainFileID())]:
      the rewritten text, or a null pointer *)
  getRewriteBufferFor_main : Clang → option string;
  (** [sourceManager.getBufferData(sourceManager.getMainFileID(), &invalid)]:
      the text of the main file and the [invalid] flag *)
  getBufferData_main : Clang → string * bool
}.

(** What [HandleTranslationUnit] does, one event per call it makes. *)
Inductive Event : Type :=
| EvIndexDeclarations
| EvCollectDependencies
| EvSetSuppressAllDiagnostics (b : bool)
| EvLateTemplateParser (f : Decl)
| EvReachability
| EvOptimizerVisitor (used : gset Decl)
| EvOptimizerFinalize
| EvMergeNamespaces (removedDecls : gset Decl)
| EvPreprocessorFinalize
| EvApplyChanges
| EvGetResult.

(** The phases of a run. *)
Inductive Phase : Type :=
| DeclarationIndexing
| DependencyCollection
| ReachabilityComputation
| LexicalPruning
| NamespaceMerging
| PreprocessorFinalization
| EditApplication
| ResultExtraction.

#[export] Instance Phase_eq_dec : EqDecision Phase.
Proof. solve_decision. Defined.

Definition phase_of (e : Event) : Phase :=
  match e with
  | EvIndexDeclarations => DeclarationIndexing
  | EvCollectDependencies | EvSetSuppressAllDiagnostics _ | EvLateTemplateParser _ =>
      DependencyCollection
  | EvReachability => ReachabilityComputation
  | EvOptimizerVisitor _ | EvOptimizerFinalize => LexicalPruning
  | EvMergeNamespaces _ => NamespaceMerging
  | EvPreprocessorFinalize => PreprocessorFinalization
  | EvApplyChanges => EditApplication
  | EvGetResult => ResultExtraction
  end.

(** The phases of a trace, each maximal run of events of one phase counted
    once. *)
Fixpoint phases (tr : list Event) : list Phase :=
  match tr with
  | [] => []
  | e :: tr' =>
      match phases tr' with
      | p :: ps => if decide (phase_of e = p) then p :: ps else phase_of e :: p :: ps
      | [] => [phase_of e]
      end
  end.

(** The phases in the order of the source. *)
Definition phase_sequence : list Phase :=
  [ DeclarationIndexing; DependencyCollection; ReachabilityComputation;
    LexicalPruning; NamespaceMerging; PreprocessorFinalization;
    EditApplication; ResultExtraction ].

(** The events of one call of [HandleTranslationUnit]: [delayed] are the
    late-parsed functions, [suppressAll] the flag read before their parsing,
    [used] and [removedDecls] the sets handed to the pruning passes. *)
Definition run_events (delayed : list Decl) (suppressAll : bool)
    (used removedDecls : gset Decl) : list Event :=
  [EvIndexDeclarations; EvCollectDependencies; EvSetSuppressAllDiagnostics true]
  ++ (EvLateTemplateParser <$> delayed)
  ++ [EvSetSuppressAllDiagnostics suppressAll; EvReachability;
      EvOptimizerVisitor used; EvOptimizerFinalize; EvMergeNamespaces removedDecls;
      EvPreprocessorFinalize; EvApplyChanges; EvGetResult].

(** A run: the front-end state and the events so far. *)
Record Run : Type := mkRun {
  clang : Clang;
  trace : list Event
}.

(** A step of the consumer: it may fail to return (the loop of the
    reachability phase) and it changes the run. *)
Definition Action (A : Type) : Type := Run → option (A * Run).

Definition action_ret {A : Type} (a : A) : Action A := λ r, Some (a, r).

Definition action_bind {A B : Type} (m : Action A) (k : A → Action B) : Action B :=
  λ r, match m r with
       | Some (a, r') => k a r'
       | None => None
       end.

Definition emit (e : Event) : Action unit :=
  λ r, Some (tt, {| clang := clang r; trace := trace r ++ [e] |}).

(** A call into a collaborator. *)
Definition call {A : Type} (e : Event) (f : Clang → A * Clang) : Action A :=
  λ r, let '(a, c) := f (clang r) in
       Some (a, {| clang := c; trace := trace r ++ [e] |}).

Definition lift_option {A : Type} (o : option A) : Action A :=
  λ r, match o with Some a => Some (a, r) | None => None end.

Fixpoint for_each {A : Type} (body : A → Action unit) (l : list A) : Action unit :=
  match l with
  | [] => action_ret tt
  | x :: l' => action_bind (body x) (λ _, for_each body l')
  end.

End Consumer.
Arguments Clang : clear implicits.
Arguments Collaborators Key {_ _} Ext.
Arguments Run : clear implicits.
Arguments Action : clear implicits.

#[export] Instance Action_ret {Ext : Type} : MRet (Action Ext) :=
  λ A a, action_ret a.
#[export] Instance Action_bind {Ext : Type} : MBind (Action Ext) :=
  λ A B k m, action_bind m k.

Section Handle.
Context {Key : Type} `{Countable Key} {Ext : Type}.
Variable c : Collaborators Key Ext.

(** [diag.getSuppressAllDiagnostics()] *)
Definition getSuppressAllDiagnostics : Action Ext bool :=
  λ r, Some (SuppressAllDiagnostics (clang r), r).

(** [diag.setSuppressAllDiagnostics(b)] *)
Definition setSuppressAllDiagnostics (b : bool) : Action Ext unit :=
  λ r, Some (tt, {| clang := {| SuppressAllDiagnostics := b; rest := rest (clang r) |};
                    trace := trace r ++ [EvSetSuppressAllDiagnostics b] |}).

(** The front-end state after the parser has been called on each function of
    the list in turn. *)
Definition parse_all (fs : list Decl) (w : Clang Ext) : Clang Ext :=
  foldl (λ w f, LateTemplateParser c f w) w fs.

(** The forced parsing of late-parsed templates:
<<
    const bool suppressAll = diag.getSuppressAllDiagnostics();
    diag.setSuppressAllDiagnostics(true);
    for (FunctionDecl* f : srcInfo.delayedParsedFunctions) {
        auto& lpt = sema.LateParsedTemplateMap[f];
        sema.LateTemplateParser(sema.OpaqueParser, *lpt);
    }
    diag.setSuppressAllDiagnostics(suppressAll);
>> *)
Definition force_late_parsing (srcInfo : SourceInfo Key) : Action Ext unit :=
  suppressAll ← getSuppressAllDiagnostics;
  setSuppressAllDiagnostics true;;
  for_each (λ f, call (EvLateTemplateParser f) (λ w, (tt, LateTemplateParser c f w)))
           (delayedParsedFunctions srcInfo);;
  setSuppressAllDiagnostics suppressAll.

(** Block 1: the dependency graph. *)
Definition collect_dependencies (identifiersToKeep : gset string)
    (Ctx : ASTContext Key) (srcInfo : SourceInfo Key) : Action Ext (SourceInfo Key) :=
  srcInfo ← call EvCollectDependencies
              (DependenciesCollector_TraverseDecl c (getTranslationUnitDecl Ctx)
                 identifiersToKeep srcInfo);
  force_late_parsing srcInfo;;
  mret srcInfo.

(** Block 2: the loop that computes [used]; the subscripts of the loop act on
    [srcInfo.uses]. *)
Definition find_used (Ctx : ASTContext Key) (srcInfo : SourceInfo Key)
    : Action Ext (gset Decl * SourceInfo Key) :=
  emit EvReachability;;
  '(_, s) ← lift_option
      (Reachability.reachability_phase (getCanonicalDecl Ctx)
         (uses srcInfo) (declsToKeep srcInfo));
  mret (Reachability.used s,
              {| uses := Reachability.uses s;
                 declsToKeep := declsToKeep srcInfo;
                 delayedParsedFunctions := delayedParsedFunctions srcInfo;
                 nonImplicitDecls := nonImplicitDecls srcInfo |}).

(** [OptimizerConsumer::getResult], from the pointer
    [getRewriteBufferFor] returns and from the main-file buffer. *)
Definition getResult (rewriteBuf : option string) (bufferData : string * bool) : string :=
  match rewriteBuf with
  | Some buf => buf
  | None =>
      (* No changes *)
      let '(data, invalid) := bufferData in
      if invalid then "Inliner error"%string else data
  end.

(** [OptimizerConsumer::HandleTranslationUnit]; the value is what it assigns
    to [result]. The member [srcInfo] starts default-constructed. *)
Definition HandleTranslationUnit (identifiersToKeep : gset string)
    (Ctx : ASTContext Key) : Action Ext string :=
  (* 0. Collect auxiliary information. *)
  emit EvIndexDeclarations;;
  srcInfo ← mret (Indexer.index_declarations Ctx empty_SourceInfo);
  (* 1. Build dependency graph for semantic declarations. *)
  srcInfo ← collect_dependencies identifiersToKeep Ctx srcInfo;
  (* 2. Find semantic declarations that are reachable from main function. *)
  '(used, srcInfo) ← find_used Ctx srcInfo;
  (* 3. Remove unnecessary lexical declarations. *)
  removedDecls ← call (EvOptimizerVisitor used)
                   (OptimizerVisitor_TraverseDecl c (getTranslationUnitDecl Ctx) used ∅);
  removedDecls ← call EvOptimizerFinalize
                   (OptimizerVisitor_Finalize c Ctx used removedDecls);
  call (EvMergeNamespaces removedDecls)
       (λ w, (tt, MergeNamespacesVisitor_TraverseDecl c (getTranslationUnitDecl Ctx)
                    removedDecls w));;
  (* 4, 5. Remove inactive preprocessor branches and unused definitions. *)
  call EvPreprocessorFinalize (λ w, (tt, ppCallbacks_Finalize c w));;
  call EvApplyChanges (λ w, (tt, applyChanges c w));;
  call EvGetResult
       (λ w, (getResult (getRewriteBufferFor_main c w) (getBufferData_main c w), w)).

(** [HandleTranslationUnit] from block 2 on: what it does once the
    dependency graph is built and the late-parsed functions are parsed. *)
Definition after_collection (Ctx : ASTContext Key) (srcInfo : SourceInfo Key)
    : Action Ext string :=
  (* 2. Find semantic declarations that are reachable from main function. *)
  '(used, srcInfo) ← find_used Ctx srcInfo;
  (* 3. Remove unnecessary lexical declarations. *)
  removedDecls ← call (EvOptimizerVisitor used)
                   (OptimizerVisitor_TraverseDecl c (getTranslationUnitDecl Ctx) used ∅);
  removedDecls ← call EvOptimizerFinalize
                   (OptimizerVisitor_Finalize c Ctx used removedDecls);
  call (EvMergeNamespaces removedDecls)
       (λ w, (tt, MergeNamespacesVisitor_TraverseDecl c (getTranslationUnitDecl Ctx)
                    removedDecls w));;
  (* 4, 5. Remove inactive preprocessor branches and unused definitions. *)
  call EvPreprocessorFinalize (λ w, (tt, ppCallbacks_Finalize c w));;
  call EvApplyChanges (λ w, (tt, applyChanges c w));;
  call EvGetResult
       (λ w, (getResult (getRewriteBufferFor_main c w) (getBufferData_main c w), w)).

(** The front-end state in which the forced parsing leaves the state [w] of
    the dependency collector: the parser has run on every late-parsed
    function in turn, starting with diagnostics suppressed, and the flag is
    the one of [w] again. *)
Definition parsed_state (srcInfo : SourceInfo Key) (w : Clang Ext) : Clang Ext :=
  {| SuppressAllDiagnostics := SuppressAllDiagnostics w;
     rest := rest (parse_all (delayedParsedFunctions srcInfo)
                     {| SuppressAllDiagnostics := true; rest := rest w |}) |}.

End Handle.

(** *** A front end for the examples

    Its state is the text of the main file, whether that buffer is valid,
    the declarations whose removal has been scheduled and the rewritten
    text, once the edits have been applied. *)
Record ExampleExt : Type := mkExampleExt {
  main_text : string;
  main_invalid : bool;
  scheduled : gset Decl;
  rewritten : option string
}.

Definition example_collaborators (g : References) (keep : gset Decl)
    (delayed : list Decl) : Collaborators nat ExampleExt :=
  {| DependenciesCollector_TraverseDecl := λ _ _ srcInfo w,
       ({| uses := g; declsToKeep := keep; delayedParsedFunctions := delayed;
           nonImplicitDecls := nonImplicitDecls srcInfo |}, w);
     LateTemplateParser := λ _ w, w;
     OptimizerVisitor_TraverseDecl := λ tu used removed w,
       let unused := filter (λ d, d ∉ used)
                       (list_to_set (decl_addr <$> written_decls tu) : gset Decl) in
       (removed ∪ unused,
        {| SuppressAllDiagnostics := SuppressAllDiagnostics w;
           rest := {| main_text := main_text (rest w);
                      main_invalid := main_invalid (rest w);
                      scheduled := scheduled (rest w) ∪ unused;
                      rewritten := rewritten (rest w) |} |});
     OptimizerVisitor_Finalize := λ _ _ removed w, (removed, w);
     MergeNamespacesVisitor_TraverseDecl := λ _ _ w, w;
     ppCallbacks_Finalize := λ w, w;
     applyChanges := λ w,
       {| SuppressAllDiagnostics := SuppressAllDiagnostics w;
          rest := {| main_text := main_text (rest w);
                     main_invalid := main_invalid (rest w);
                     scheduled := scheduled (rest w);
                     rewritten := if decide (scheduled (rest w) = ∅) then None
                                  else Some "int main() {}"%string |} |};
     getRewriteBufferFor_main := λ w, rewritten (rest w);
     getBufferData_main := λ w, (main_text (rest w), main_invalid (rest w)) |}.

(** The same collaborators with another late template parser. *)
Definition with_parser (c : Collaborators nat ExampleExt)
    (parser : Decl → Clang ExampleExt → Clang ExampleExt) : Collaborators nat ExampleExt :=
  {| DependenciesCollector_TraverseDecl := DependenciesCollector_TraverseDecl c;
     LateTemplateParser := parser;
     OptimizerVisitor_TraverseDecl := OptimizerVisitor_TraverseDecl c;
     OptimizerVisitor_Finalize := OptimizerVisitor_Finalize c;
     MergeNamespacesVisitor_TraverseDecl := MergeNamespacesVisitor_TraverseDecl c;
     ppCallbacks_Finalize := ppCallbacks_Finalize c;
     applyChanges := applyChanges c;
     getRewriteBufferFor_main := getRewriteBufferFor_main c;
     getBufferData_main := getBufferData_main c |}.

(** A parser that switches the suppression of diagnostics off. *)
Definition example_unsuppressing_parser (f : Decl) (w : Clang ExampleExt)
    : Clang ExampleExt :=
  {| SuppressAllDiagnostics := false; rest := rest w |}.

(** A translation unit in which every written declaration is used. *)
Definition example_tu_all_used : DeclNode nat :=
  Node (mkDecl 1%positive false 0)
    [ Node (mkDecl 2%positive false 10) [] [];
      Node (mkDecl 3%positive false 20) [] [] ]
    [].

Definition example_Ctx_all_used : ASTContext nat :=
  {| getTranslationUnitDecl := example_tu_all_used;
     getCanonicalDecl := Reachability.example_canonical |}.

Definition example_start (text : string) (invalid suppress : bool) : Run ExampleExt :=
  {| clang := {| SuppressAllDiagnostics := suppress;
                 rest := {| main_text := text; main_invalid := invalid;
                            scheduled := ∅; rewritten := None |} |};
     trace := [] |}.

End Consumer.

(** ** The driver: [ErrorCollector] and [Optimizer::doOptimize] *)

Module Driver.

(** [DiagnosticsEngine::Level], in increasing order. *)
Inductive Level : Type := Ignored | Note | Remark | Warning | Error | Fatal.

Definition level_rank (l : Level) : nat :=
  match l with
  | Ignored => 0 | Note => 1 | Remark => 2 | Warning => 3 | Error => 4 | Fatal => 5
  end.

(** What [HandleDiagnostic] reads of a [clang::Diagnostic]. *)
Record Diagnostic : Type := mkDiagnostic {
  hasSourceManager : bool;
  (** [Info.getLocation().printToString(Info.getSourceManager())] *)
  location : string;
  (** the text [Info.FormatDiagnostic] writes into the buffer *)
  FormatDiagnostic : string
}.

(** [ErrorCollector::HandleDiagnostic] on the member [errors]. The call of
    the base class only keeps the front end's own counts of warnings and
    errors, which nothing here reads. *)
Definition HandleDiagnostic (DiagLevel : Level) (Info : Diagnostic)
    (errors : list string) : list string :=
  if decide (level_rank Error ≤ level_rank DiagLevel) then
    let message := if hasSourceManager Info then location Info +:+ ": " else EmptyString in
    let message := message +:+ FormatDiagnostic Info in
    errors ++ [message]
  else errors.

(** [ErrorCollector::clear] *)
Definition clear (errors : list string) : list string := [].

(** The calls the front end makes on the diagnostic consumer. *)
Inductive ConsumerCall : Type :=
| CallHandleDiagnostic (DiagLevel : Level) (Info : Diagnostic)
| CallClear.

Definition consumer_step (errors : list string) (call : ConsumerCall) : list string :=
  match call with
  | CallHandleDiagnostic DiagLevel Info => HandleDiagnostic DiagLevel Info errors
  | CallClear => clear errors
  end.

(** [errors.getErrors()] once the tool has run. *)
Definition getErrors (calls : list ConsumerCall) : list string :=
  fold_left consumer_step calls [].

(** What [tool.run(&factory)] does, seen from [doOptimize]: the value it
    returns, the calls it makes on the diagnostic consumer, and the text the
    consumer assigns to [result] when the front end gets as far as
    [HandleTranslationUnit]. The tool is taken to return: a front end that
    hands [CreateASTConsumer] a compiler without source manager, so that its
    guard throws through the tool, is not covered. *)
Record ToolRun : Type := mkToolRun {
  ret : Z;
  consumer_calls : list ConsumerCall;
  assigned_result : option string
}.

(** How a call of [doOptimize] ends. *)
Inductive Outcome : Type :=
| Returned (text : string)
| Raised (what : string).

Definition newline : string := String "010"%char EmptyString.

(** [std::string::c_str] read back as a string, as the constructor of
    [std::runtime_error] does: the characters before the first NUL. *)
Fixpoint c_str (s : string) : string :=
  match s with
  | EmptyString => EmptyString
  | String ch s' =>
      if Ascii.eqb ch "000"%char then EmptyString else String ch (c_str s')
  end.

(** The message [doOptimize] builds when the tool fails. *)
Definition failure_message (errors : list string) : string :=
  let message := "Inliner failed." in
  match errors with
  | [] => message
  | _ =>
      fold_left (λ message error, (message +:+ error) +:+ newline) errors
        (message +:+ " The following compilation errors were detected: ")
  end.

(** [Optimizer::doOptimize], from the point where the tool runs:
<<
    int ret = tool.run(&factory);
    if (ret != 0) {
        ...
        throw std::runtime_error(message.c_str());
    }
    return result;
>> *)
Definition doOptimize (run : ToolRun) : Outcome :=
  let errors := getErrors (consumer_calls run) in
  let result := default EmptyString (assigned_result run) in
  if decide (ret run ≠ 0%Z) then Raised (c_str (failure_message errors))
  else Returned result.

(** [text] occurs in [message]. *)
Definition carries (message text : string) : Prop :=
  ∃ before after, message = before +:+ text +:+ after.

(** The text contains no NUL character. *)
Fixpoint nul_free (s : string) : bool :=
  match s with
  | EmptyString => true
  | String ch s' => negb (Ascii.eqb ch "000"%char) && nul_free s'
  end.

(** A failed run with two errors and a warning. *)
Definition example_failed_run : ToolRun :=
  {| ret := 1;
     consumer_calls :=
       [ CallHandleDiagnostic Warning (mkDiagnostic true "a.cpp:1:1" "unused variable 'x'");
         CallHandleDiagnostic Error (mkDiagnostic true "a.cpp:2:5" "expected ';'");
         CallHandleDiagnostic Fatal (mkDiagnostic false EmptyString "too many errors") ];
     assigned_result := Some "int main() {}" |}.

(** The text of an error with a NUL character in it: the file named in an
    [#include] was not found, and the name has a NUL byte after its first
    character. *)
Definition example_nul_text : string :=
  "'a" +:+ String "000" EmptyString +:+ "b' file not found".

(** A failed run whose only error is that one. *)
Definition example_nul_run : ToolRun :=
  {| ret := 1;
     consumer_calls :=
       [ CallHandleDiagnostic Fatal (mkDiagnostic true "a.cpp:1:10" example_nul_text) ];
     assigned_result := None |}.

End Driver.

(** ** Definitions for further properties *)

Module ReachabilityFootprint.
Import Reachability.

(** The entries of [srcInfo.uses] during the loop: that of a used declaration
    holds its successors, every other key is as in the graph at the start. *)
Definition subscript_footprint (g : References) (s : BfsState) : Prop :=
  ∀ d, uses s !! d = if decide (d ∈ used s) then Some (successors g d) else g !! d.

(** A graph whose only edge leads to a declaration that is not canonical:
    [f] (address 2) refers to [main] through its redeclaration (5). *)
Definition example_redeclared_uses : References :=
  {[ 2%positive := {[ 5%positive ]} ]}.

End ReachabilityFootprint.

Module IndexFold.
Import Ast Source.
Section IndexFold.
Context {Key : Type} `{Countable Key}.

(** The map obtained from [m] by an [emplace] for every declaration of the
    list, in the order of the list. *)
Definition index_fold (m : gmap Key Decl) (decls : list (DeclInfo Key)) : gmap Key Decl :=
  foldl (λ m info, emplace (makeKey info) (decl_addr info) m) m decls.

(** [srcInfo] with another declaration map. *)
Definition with_index (srcInfo : SourceInfo Key) (m : gmap Key Decl) : SourceInfo Key :=
  {| uses := uses srcInfo;
     declsToKeep := declsToKeep srcInfo;
     delayedParsedFunctions := delayedParsedFunctions srcInfo;
     nonImplicitDecls := m |}.

End IndexFold.
End IndexFold.

Module DriverText.
Import Driver.

(** The text [HandleDiagnostic] stores for a diagnostic. *)
Definition diagnostic_message (Info : Diagnostic) : string :=
  (if hasSourceManager Info then location Info +:+ ": " else EmptyString)
  +:+ FormatDiagnostic Info.

(** What a call on the consumer adds to the errors. *)
Definition collected (call : ConsumerCall) : option string :=
  match call with
  | CallHandleDiagnostic Error Info | CallHandleDiagnostic Fatal Info =>
      Some (diagnostic_message Info)
  | _ => None
  end.

(** The errors, one per line. *)
Definition error_lines (errors : list string) : string :=
  fold_right (λ error rest, error +:+ (newline +:+ rest)) EmptyString errors.

(** The whole text of the failure message. *)
Definition aggregate (errors : list string) : string :=
  match errors with
  | [] => "Inliner failed."
  | _ => "Inliner failed. The following compilation errors were detected: "
         +:+ error_lines errors
  end.

End DriverText.

Module ReachabilityFacts.
Import Reachability ReachabilityInv.

Lemma foldr_min_elem (d : positive) (ds : list positive) :
  foldr Pos.min d ds ∈ d :: ds.
Proof.
  induction ds as [|x ds IH]; simpl; [set_solver|].
  destruct (Pos.min_spec x (foldr Pos.min d ds)) as [[_ ->]|[_ ->]]; set_solver.
Qed.

Lemma foldr_min_le (d : positive) (ds : list positive) (x : positive) :
  x ∈ d :: ds → (foldr Pos.min d ds ≤ x)%positive.
Proof.
  induction ds as [|y ds IH]; simpl; intros Hx.
  - apply list_elem_of_singleton in Hx as ->. lia.
  - assert (x = y ∨ x ∈ d :: ds) as [->|Hin] by set_solver; [lia|].
    specialize (IH Hin). lia.
Qed.

Lemma queue_begin_None (q : gset Decl) : queue_begin q = None ↔ q = ∅.
Proof.
  unfold queue_begin. split.
  - destruct (elements q) eqn:E; [|done]. intros _. by apply elements_empty_inv, leibniz_equiv in E.
  - intros ->. by rewrite elements_empty.
Qed.

Lemma queue_begin_Some (q : gset Decl) (d : Decl) :
  queue_begin q = Some d → d ∈ q.
Proof.
  unfold queue_begin. destruct (elements q) as [|x l] eqn:E; [done|].
  intros [= <-]. pose proof (foldr_min_elem x l) as Hmin.
  rewrite <- E in Hmin. by apply elem_of_elements in Hmin.
Qed.

Lemma queue_begin_least (q : gset Decl) (d x : Decl) :
  queue_begin q = Some d → x ∈ q → (d ≤ x)%positive.
Proof.
  unfold queue_begin. destruct (elements q) as [|y l] eqn:E; [done|].
  intros [= <-] Hx. apply foldr_min_le. rewrite <- E. by apply elem_of_elements.
Qed.

Lemma successors_subscript (g : References) (d d' : Decl) :
  successors (subscript g d).2 d' = successors g d'.
Proof.
  unfold subscript, successors; simpl.
  destruct (decide (d = d')) as [->|Hne].
  - by rewrite lookup_insert_eq.
  - by rewrite lookup_insert_ne.
Qed.

(** A second subscript with the same key finds the entry of the first. *)
Lemma subscript_again (g : References) (d : Decl) :
  subscript (subscript g d).2 d = (successors g d, (subscript g d).2).
Proof.
  unfold subscript at 1. rewrite successors_subscript.
  f_equal. unfold subscript; simpl. by rewrite insert_insert_eq.
Qed.

Lemma successors_targets (g : References) (d : Decl) :
  successors g d ⊆ targets g.
Proof.
  unfold successors, targets. destruct (g !! d) as [X|] eqn:E; simpl; [|set_solver].
  intros x Hx. apply elem_of_union_list. exists X. split; [|done].
  apply list_elem_of_fmap. exists (d, X). split; [done|].
  by apply elem_of_map_to_list.
Qed.

Lemma expansion_cost_remove (g : References) (X : gset Decl) (d : Decl) :
  d ∈ X →
  expansion_cost g X = 1 + size (successors g d) + expansion_cost g (X ∖ {[d]}).
Proof.
  intros Hd. unfold expansion_cost.
  rewrite (union_difference_singleton_L d X Hd) at 1.
  rewrite elements_union_singleton by set_solver. done.
Qed.

Lemma initial_queue_spec (canon : Decl → Decl) (keep : gset Decl) :
  initial_queue canon keep = canonical_roots canon keep.
Proof.
  apply set_eq. intros x. unfold initial_queue, canonical_roots.
  rewrite elem_of_map.
  apply (set_fold_ind_L (λ q X, x ∈ q ↔ ∃ d, x = canon d ∧ d ∈ X)).
  - set_solver.
  - intros d X q Hd IH. set_solver.
Qed.

(** *** One iteration: invariant and measure *)

Lemma visit_skip (d : Decl) (s : BfsState) :
  d ∈ used s →
  visit d s = {| queue := queue s ∖ {[d]}; used := used s; uses := uses s |}.
Proof. intros Hd. unfold visit. by rewrite decide_True. Qed.

Lemma visit_expand (d : Decl) (s : BfsState) :
  d ∉ used s →
  visit d s = {| queue := queue s ∖ {[d]} ∪ successors (uses s) d;
                 used := used s ∪ {[d]};
                 uses := <[d := successors (uses s) d]> (uses s) |}.
Proof.
  intros Hd. unfold visit. rewrite decide_False by done.
  destruct (subscript (uses s) d) as [range uses1] eqn:E1.
  pose proof (subscript_again (uses s) d) as E2. rewrite E1 in E2. simpl in E2.
  rewrite E2. unfold subscript in E1. by injection E1 as <- <-.
Qed.

Lemma visit_used (d : Decl) (s : BfsState) :
  used (visit d s) = used s ∪ {[d]}.
Proof.
  destruct (decide (d ∈ used s)) as [Hd|Hd].
  - rewrite (visit_skip d s Hd). simpl. set_solver.
  - by rewrite (visit_expand d s Hd).
Qed.

Lemma visit_graph (d : Decl) (s : BfsState) (d' : Decl) :
  successors (uses (visit d s)) d' = successors (uses s) d'.
Proof.
  destruct (decide (d ∈ used s)) as [Hd|Hd].
  - by rewrite (visit_skip d s Hd).
  - rewrite (visit_expand d s Hd). simpl.
    apply (successors_subscript (uses s) d d').
Qed.

Lemma reachable_root (g : References) (roots : gset Decl) (d : Decl) :
  d ∈ roots → reachable g roots d.
Proof. intros Hd. exists d. split; [done|apply rtc_refl]. Qed.

Lemma reachable_step (g : References) (roots : gset Decl) (a b : Decl) :
  reachable g roots a → b ∈ successors g a → reachable g roots b.
Proof.
  intros (r & Hr & Hpath) Hb. exists r. split; [done|].
  eapply rtc_r; [exact Hpath|exact Hb].
Qed.

Lemma visit_inv (g : References) (roots : gset Decl) (d : Decl) (s : BfsState) :
  bfs_inv g roots s → d ∈ queue s → bfs_inv g roots (visit d s).
Proof.
  intros [Hg Hroots Hclosed Hsound] Hd.
  assert (Hdr : reachable g roots d) by (apply Hsound; set_solver).
  destruct (decide (d ∈ used s)) as [Hu|Hu].
  - rewrite (visit_skip d s Hu). split; simpl.
    + done.
    + intros x Hx. specialize (Hroots x Hx).
      destruct (decide (x = d)) as [->|]; set_solver.
    + intros x Hx y Hy. specialize (Hclosed x Hx y Hy).
      destruct (decide (y = d)) as [->|]; set_solver.
    + intros x Hx. apply Hsound. set_solver.
  - rewrite (visit_expand d s Hu). split; simpl.
    + intros x. rewrite <- (Hg x).
      apply (successors_subscript (uses s) d x).
    + rewrite Hg.
      intros x Hx. specialize (Hroots x Hx).
      destruct (decide (x = d)); set_solver.
    + rewrite Hg.
      intros x Hx y Hy. destruct (decide (y = d)) as [->|Hne]; [set_solver|].
      apply elem_of_union in Hx as [Hx|Hx].
      * specialize (Hclosed x Hx y Hy). set_solver.
      * apply elem_of_singleton in Hx as ->. set_solver.
    + rewrite Hg. intros x Hx.
      assert (x ∈ used s ∪ queue s ∨ x ∈ successors g d) as [Hold|Hnew] by set_solver.
      * by apply Hsound.
      * by apply (reachable_step g roots d x).
Qed.

Lemma inv_initial (canon : Decl → Decl) (g : References) (keep : gset Decl) :
  bfs_inv g (canonical_roots canon keep) (initial_state canon g keep).
Proof.
  unfold initial_state. rewrite initial_queue_spec. split; simpl.
  - done.
  - set_solver.
  - set_solver.
  - intros d Hd. apply reachable_root. set_solver.
Qed.

Lemma inv_final (g : References) (roots : gset Decl) (s : BfsState) :
  bfs_inv g roots s → queue s = ∅ →
  ∀ d, d ∈ used s ↔ reachable g roots d.
Proof.
  intros [Hg Hroots Hclosed Hsound] Hq d. rewrite Hq in *. split.
  - intros Hd. apply Hsound. set_solver.
  - intros (r & Hr & Hpath).
    assert (Hru : r ∈ used s) by set_solver.
    clear Hr. induction Hpath as [x|x y z Hxy _ IH]; [done|].
    apply IH. specialize (Hclosed x Hru y Hxy). set_solver.
Qed.

Lemma visit_remaining (g : References) (V : gset Decl) (d : Decl) (s : BfsState) :
  (∀ x, successors (uses s) x = successors g x) →
  queue s ⊆ V → d ∈ queue s →
  remaining g V (visit d s) < remaining g V s.
Proof.
  intros Hg HV Hd. unfold remaining.
  assert (Hq : size (queue s) = 1 + size (queue s ∖ {[d]})).
  { rewrite (union_difference_singleton_L d (queue s) Hd) at 1.
    rewrite size_union by set_solver. by rewrite size_singleton. }
  destruct (decide (d ∈ used s)) as [Hu|Hu].
  - rewrite (visit_skip d s Hu); simpl. lia.
  - rewrite (visit_expand d s Hu); simpl. rewrite Hg.
    rewrite (expansion_cost_remove g (V ∖ used s) d) by set_solver.
    replace (V ∖ (used s ∪ {[d]})) with (V ∖ used s ∖ {[d]}) by set_solver.
    pose proof (size_union_alt (queue s ∖ {[d]}) (successors g d)) as Hsz.
    pose proof (subseteq_size (successors g d ∖ (queue s ∖ {[d]})) (successors g d)) as Hle.
    rewrite Hsz. specialize (Hle ltac:(set_solver)). lia.
Qed.

Lemma visit_bounded (g : References) (V : gset Decl) (d : Decl) (s : BfsState) :
  (∀ x, successors (uses s) x = successors g x) →
  targets g ⊆ V → queue s ⊆ V → queue (visit d s) ⊆ V.
Proof.
  intros Hg HT HV. pose proof (successors_targets g d) as Hsub.
  destruct (decide (d ∈ used s)) as [Hd|Hd].
  - rewrite (visit_skip d s Hd). simpl. set_solver.
  - rewrite (visit_expand d s Hd). simpl. rewrite Hg. set_solver.
Qed.

(** *** The loop *)

Lemma bfs_loop_unfold (fuel : nat) (s : BfsState) (d : Decl) :
  queue_begin (queue s) = Some d →
  bfs_loop (S fuel) s =
    '(marks, s') ← bfs_loop fuel (visit d s); Some (marked_by d s ++ marks, s').
Proof. intros Hd. simpl. by rewrite Hd. Qed.

Lemma bfs_loop_terminates (g : References) (V : gset Decl) :
  targets g ⊆ V →
  ∀ (fuel : nat) (s : BfsState),
    (∀ x, successors (uses s) x = successors g x) →
    queue s ⊆ V → remaining g V s ≤ fuel →
    is_Some (bfs_loop fuel s).
Proof.
  intros HT fuel. induction fuel as [|fuel IH]; intros s Hg HV Hrem.
  - destruct (queue_begin (queue s)) as [d|] eqn:Hb; simpl; rewrite Hb; [|done].
    apply queue_begin_Some in Hb.
    pose proof (visit_remaining g V d s Hg HV Hb). lia.
  - destruct (queue_begin (queue s)) as [d|] eqn:Hb; [|simpl; by rewrite Hb].
    rewrite (bfs_loop_unfold fuel s d Hb).
    pose proof (queue_begin_Some _ _ Hb) as Hd.
    pose proof (visit_remaining g V d s Hg HV Hd) as Hlt.
    destruct (IH (visit d s)) as [[marks s'] ->].
    + intros x. by rewrite visit_graph.
    + by apply (visit_bounded g).
    + lia.
    + done.
Qed.

Lemma bfs_loop_inv (g : References) (roots : gset Decl) (fuel : nat) :
  ∀ (s : BfsState) (marks : list Decl) (s' : BfsState),
    bfs_inv g roots s → bfs_loop fuel s = Some (marks, s') →
    bfs_inv g roots s' ∧ queue s' = ∅.
Proof.
  induction fuel as [|fuel IH]; intros s marks s' Hinv Hrun.
  - simpl in Hrun. destruct (queue_begin (queue s)) eqn:Hb; [done|].
    injection Hrun as <- <-. split; [done|]. by apply queue_begin_None.
  - destruct (queue_begin (queue s)) as [d|] eqn:Hb.
    + rewrite (bfs_loop_unfold fuel s d Hb) in Hrun.
      destruct (bfs_loop fuel (visit d s)) as [[marks1 s1]|] eqn:Hrec; [|done].
      injection Hrun as <- <-.
      apply (IH (visit d s) marks1 s1); [|done].
      apply visit_inv; [done|]. by apply queue_begin_Some.
    + simpl in Hrun. rewrite Hb in Hrun. injection Hrun as <- <-.
      split; [done|]. by apply queue_begin_None.
Qed.

Lemma bfs_loop_marks (fuel : nat) :
  ∀ (s : BfsState) (marks : list Decl) (s' : BfsState),
    bfs_loop fuel s = Some (marks, s') →
    NoDup marks ∧ (∀ d, d ∈ marks → d ∉ used s) ∧
    used s' = used s ∪ list_to_set marks.
Proof.
  induction fuel as [|fuel IH]; intros s marks s' Hrun.
  - simpl in Hrun. destruct (queue_begin (queue s)); [done|].
    injection Hrun as <- <-. split; [constructor|]. set_solver.
  - destruct (queue_begin (queue s)) as [d|] eqn:Hb.
    + rewrite (bfs_loop_unfold fuel s d Hb) in Hrun.
      destruct (bfs_loop fuel (visit d s)) as [[marks1 s1]|] eqn:Hrec; [|done].
      injection Hrun as <- <-.
      destruct (IH _ _ _ Hrec) as (Hnd & Hfresh & Hused).
      rewrite visit_used in Hfresh, Hused. unfold marked_by.
      destruct (decide (d ∈ used s)) as [Hu|Hu]; simpl.
      * split; [done|]. split; [|set_solver].
        intros x Hx. specialize (Hfresh x Hx). set_solver.
      * split; [|split].
        -- constructor; [|done]. intros Hin. specialize (Hfresh d Hin). set_solver.
        -- intros x Hx. apply elem_of_cons in Hx as [->|Hx]; [done|].
           specialize (Hfresh x Hx). set_solver.
        -- rewrite Hused. set_solver.
    + simpl in Hrun. rewrite Hb in Hrun. injection Hrun as <- <-.
      split; [constructor|]. set_solver.
Qed.

Lemma bfs_loop_order (fuel : nat) :
  ∀ (s : BfsState) (marks : list Decl) (s' : BfsState),
    bfs_loop fuel s = Some (marks, s') →
    ∃ order, length order ≤ fuel ∧ run_order order s = Some s'.
Proof.
  induction fuel as [|fuel IH]; intros s marks s' Hrun.
  - simpl in Hrun. destruct (queue_begin (queue s)); [done|].
    injection Hrun as <- <-. by exists [].
  - destruct (queue_begin (queue s)) as [d|] eqn:Hb.
    + rewrite (bfs_loop_unfold fuel s d Hb) in Hrun.
      destruct (bfs_loop fuel (visit d s)) as [[marks1 s1]|] eqn:Hrec; [|done].
      injection Hrun as <- <-.
      destruct (IH _ _ _ Hrec) as (order & Hlen & Hord).
      exists (d :: order). split; [simpl; lia|]. simpl.
      rewrite decide_True by (by apply queue_begin_Some). done.
    + simpl in Hrun. rewrite Hb in Hrun. injection Hrun as <- <-.
      exists []. split; [simpl; lia|done].
Qed.

Lemma run_order_inv (g : References) (roots : gset Decl) (order : list Decl) :
  ∀ (s s' : BfsState),
    bfs_inv g roots s → run_order order s = Some s' → bfs_inv g roots s'.
Proof.
  induction order as [|d order IH]; intros s s' Hinv Hrun; simpl in Hrun.
  - by injection Hrun as <-.
  - destruct (decide (d ∈ queue s)) as [Hd|]; [|done].
    apply (IH (visit d s)); [|done]. by apply visit_inv.
Qed.

Lemma run_order_length (g : References) (V : gset Decl) (order : list Decl) :
  targets g ⊆ V →
  ∀ (s s' : BfsState),
    (∀ x, successors (uses s) x = successors g x) → queue s ⊆ V →
    run_order order s = Some s' →
    length order + remaining g V s' ≤ remaining g V s.
Proof.
  intros HT. induction order as [|d order IH]; intros s s' Hg HV Hrun; simpl in Hrun.
  - injection Hrun as <-. simpl. lia.
  - destruct (decide (d ∈ queue s)) as [Hd|]; [|done].
    pose proof (visit_remaining g V d s Hg HV Hd) as Hlt.
    specialize (IH (visit d s) s').
    unshelve epose proof (IH _ _ Hrun) as Hle.
    + intros x. by rewrite visit_graph.
    + by apply (visit_bounded g).
    + simpl. lia.
Qed.

Lemma remaining_initial (canon : Decl → Decl) (g : References) (keep : gset Decl) :
  remaining g (initial_queue canon keep ∪ targets g) (initial_state canon g keep)
  = bfs_fuel g (initial_queue canon keep).
Proof.
  unfold remaining, bfs_fuel, initial_state; simpl.
  by rewrite difference_empty_L.
Qed.

Lemma reachability_phase_returns (canon : Decl → Decl) (g : References) (keep : gset Decl) :
  ∃ marks s', reachability_phase canon g keep = Some (marks, s').
Proof.
  unfold reachability_phase.
  destruct (bfs_loop_terminates g (initial_queue canon keep ∪ targets g)
              ltac:(set_solver)
              (bfs_fuel g (initial_queue canon keep))
              (initial_state canon g keep)) as [[marks s'] Hrun].
  - done.
  - simpl. set_solver.
  - by rewrite remaining_initial.
  - by exists marks, s'.
Qed.

(** *** The reachability phase *)

(** The loop on the example: the cycle and the self-loop are passed, every
    reachable declaration is marked once, [h] stays unused. *)
Example reachability_phase_example :
  reachability_phase example_canonical example_uses example_declsToKeep
  = Some ([1%positive; 2%positive; 3%positive], example_final).
Proof. vm_compute. reflexivity. Qed.

Lemma reachability_phase_correct
    (canon : Decl → Decl) (g : References) (keep : gset Decl) :
  ∃ marks s',
    reachability_phase canon g keep = Some (marks, s') ∧
    bfs_inv g (canonical_roots canon keep) s' ∧ queue s' = ∅ ∧
    (∀ d, d ∈ used s' ↔ reachable g (canonical_roots canon keep) d).
Proof.
  destruct (reachability_phase_returns canon g keep) as (marks & s' & Hrun).
  exists marks, s'. split; [done|].
  unfold reachability_phase in Hrun.
  destruct (bfs_loop_inv g (canonical_roots canon keep)
              _ _ _ _ (inv_initial canon g keep) Hrun) as [Hinv Hq].
  split; [done|]. split; [done|]. by apply inv_final.
Qed.

(** C1: for every dependency graph [uses] and every root set [declsToKeep],
    the reachability phase returns, and the set [used] it leaves is exactly
    the set of nodes reachable along the edges of [uses] from the canonical
    declarations of the members of [declsToKeep]; the edges of the graph are
    the same after the phase as before. *)
Theorem used_equals_reachable
    (getCanonicalDecl : Decl → Decl) (uses0 : References) (declsToKeep : gset Decl) :
  ∃ marks s',
    reachability_phase getCanonicalDecl uses0 declsToKeep = Some (marks, s') ∧
    (∀ d, d ∈ used s' ↔
          reachable uses0 (canonical_roots getCanonicalDecl declsToKeep) d) ∧
    (∀ d, successors (uses s') d = successors uses0 d).
Proof.
  destruct (reachability_phase_correct getCanonicalDecl uses0 declsToKeep)
    as (marks & s' & Hrun & Hinv & _ & Hused).
  exists marks, s'. split; [done|]. split; [done|]. apply Hinv.
Qed.

(** C2: for every dependency graph, cyclic or not, and every root set the
    worklist loop terminates with an empty queue within [bfs_fuel]
    iterations, and under no processing order can the loop body be run more
    often than that; the declarations for which [used.insert] reported a new member are
    pairwise distinct and make up the final [used]; and an iteration on a
    declaration that is already a member of [used] adds nothing to the
    queue. *)
Theorem bfs_terminates_marking_once
    (getCanonicalDecl : Decl → Decl) (uses0 : References) (declsToKeep : gset Decl) :
  (∃ marks s',
     reachability_phase getCanonicalDecl uses0 declsToKeep = Some (marks, s') ∧
     queue s' = ∅ ∧ NoDup marks ∧ used s' = list_to_set marks) ∧
  (∀ order s',
     run_order order (initial_state getCanonicalDecl uses0 declsToKeep) = Some s' →
     length order ≤ bfs_fuel uses0 (initial_queue getCanonicalDecl declsToKeep)) ∧
  (∀ s decl,
     decl ∈ used s →
     marked_by decl s = [] ∧ used (visit decl s) = used s ∧
     queue (visit decl s) = queue s ∖ {[decl]}).
Proof.
  split; [|split].
  - destruct (reachability_phase_returns getCanonicalDecl uses0 declsToKeep)
      as (marks & s' & Hrun).
    exists marks, s'. split; [done|].
    unfold reachability_phase in Hrun.
    destruct (bfs_loop_inv uses0 (canonical_roots getCanonicalDecl declsToKeep)
                _ _ _ _ (inv_initial getCanonicalDecl uses0 declsToKeep) Hrun)
      as [_ Hq].
    destruct (bfs_loop_marks _ _ _ _ Hrun) as (Hnd & _ & Hused).
    split; [done|]. split; [done|].
    rewrite Hused. simpl. set_solver.
  - intros order s' Hrun.
    pose proof (run_order_length uses0
                  (initial_queue getCanonicalDecl declsToKeep ∪ targets uses0)
                  order ltac:(set_solver)
                  (initial_state getCanonicalDecl uses0 declsToKeep) s'
                  ltac:(done) ltac:(simpl; set_solver) Hrun) as Hlen.
    rewrite remaining_initial in Hlen. lia.
  - intros s decl Hd. unfold marked_by. rewrite decide_True by done.
    by rewrite (visit_skip decl s Hd).
Qed.

(** C3: for every dependency graph and root set, any two processing orders
    of the worklist that run the loop body until the queue is empty end with
    the same [used] set, which is also the set the loop of the source (least
    address first) computes. *)
Theorem used_order_independent
    (getCanonicalDecl : Decl → Decl) (uses0 : References) (declsToKeep : gset Decl)
    (order1 order2 : list Decl) (s1 s2 : BfsState) :
  run_order order1 (initial_state getCanonicalDecl uses0 declsToKeep) = Some s1 →
  queue s1 = ∅ →
  run_order order2 (initial_state getCanonicalDecl uses0 declsToKeep) = Some s2 →
  queue s2 = ∅ →
  used s1 = used s2 ∧
  ∃ marks s',
    reachability_phase getCanonicalDecl uses0 declsToKeep = Some (marks, s') ∧
    used s' = used s1.
Proof.
  intros Hrun1 Hq1 Hrun2 Hq2.
  pose proof (inv_initial getCanonicalDecl uses0 declsToKeep) as Hinit.
  pose proof (run_order_inv _ _ _ _ _ Hinit Hrun1) as Hinv1.
  pose proof (run_order_inv _ _ _ _ _ Hinit Hrun2) as Hinv2.
  split.
  - apply set_eq. intros d.
    rewrite (inv_final _ _ _ Hinv1 Hq1 d).
    by rewrite (inv_final _ _ _ Hinv2 Hq2 d).
  - destruct (reachability_phase_correct getCanonicalDecl uses0 declsToKeep)
      as (marks & s' & Hrun & _ & _ & Hused).
    exists marks, s'. split; [done|].
    apply set_eq. intros d.
    by rewrite (Hused d), (inv_final _ _ _ Hinv1 Hq1 d).
Qed.

(** The order of the source (least address first) and another order, on the
    example: both end with [main], [f] and [g] used. *)
Lemma used_order_independent_witness :
  used example_final
  = used (mkBfs ∅ {[ 3%positive; 2%positive; 1%positive ]} example_uses) ∧
  ∃ marks s',
    reachability_phase example_canonical example_uses example_declsToKeep
    = Some (marks, s') ∧
    used s' = used example_final.
Proof.
  apply (used_order_independent example_canonical example_uses example_declsToKeep
           [1; 2; 3; 1; 3]%positive [1; 3; 2; 1; 3]%positive).
  - vm_compute. reflexivity.
  - reflexivity.
  - vm_compute. reflexivity.
  - reflexivity.
Defined.

End ReachabilityFacts.

Module IndexerFacts.
Import Ast Source Indexer.
Section IndexerFacts.
Context {Key : Type} `{Countable Key}.

Lemma DeclNode_induction (P : DeclNode Key → Prop) :
  (∀ info members instantiations,
     Forall P members → Forall P instantiations →
     P (Node info members instantiations)) →
  ∀ n, P n.
Proof.
  intros step.
  exact (fix rec (n : DeclNode Key) : P n :=
           match n with
           | Node info members instantiations =>
               step info members instantiations
                 ((fix all (l : list (DeclNode Key)) : Forall P l :=
                     match l with
                     | [] => Forall_nil_2 P
                     | x :: l' => Forall_cons_2 P x l' (rec x) (all l')
                     end) members)
                 ((fix all (l : list (DeclNode Key)) : Forall P l :=
                     match l with
                     | [] => Forall_nil_2 P
                     | x :: l' => Forall_cons_2 P x l' (rec x) (all l')
                     end) instantiations)
           end).
Qed.

Lemma TraverseDecl_unfold {St : Type} (v : ASTVisitor Key St)
    (info : DeclInfo Key) (members instantiations : list (DeclNode Key)) (st : St) :
  TraverseDecl v (Node info members instantiations) st =
    if negb (shouldVisitImplicitCode v) && isImplicit info then (true, st)
    else
      let '(continue, st1) := VisitDecl v info st in
      if negb continue then (false, st1)
      else
        let '(continue, st2) := TraverseDecls v members st1 in
        if negb continue then (false, st2)
        else if shouldVisitTemplateInstantiations v
             then TraverseDecls v instantiations st2
             else (true, st2).
Proof. reflexivity. Qed.

Lemma emplace_lookup (key key' : Key) (decl d : Decl) (m : gmap Key Decl) :
  emplace key decl m !! key' = Some d →
  m !! key' = Some d ∨ (key' = key ∧ d = decl).
Proof.
  unfold emplace. destruct (m !! key) eqn:E; [by left|].
  destruct (decide (key = key')) as [<-|Hne].
  - rewrite lookup_insert_eq. intros [= <-]. by right.
  - rewrite lookup_insert_ne by done. by left.
Qed.

Lemma records_written_refl (nodes : list (DeclInfo Key)) (srcInfo : SourceInfo Key) :
  records_written nodes srcInfo srcInfo.
Proof. intros key d Hd. by left. Qed.

Lemma records_written_trans (nodes1 nodes2 : list (DeclInfo Key))
    (s1 s2 s3 : SourceInfo Key) :
  records_written nodes1 s1 s2 → records_written nodes2 s2 s3 →
  records_written (nodes1 ++ nodes2) s1 s3.
Proof.
  intros H12 H23 key d Hd.
  destruct (H23 key d Hd) as [H2|(info & Hin & Hrest)].
  - destruct (H12 key d H2) as [H1|(info & Hin & Hrest)]; [by left|].
    right. exists info. split; [|done]. apply elem_of_app. by left.
  - right. exists info. split; [|done]. apply elem_of_app. by right.
Qed.

Lemma TraverseDecls_records (ns : list (DeclNode Key)) :
  Forall (λ n, ∀ srcInfo,
            records_written (written_decls n) srcInfo
              (TraverseDecl BuildNonImplicitDeclMap n srcInfo).2) ns →
  ∀ srcInfo,
    records_written (flat_map written_decls ns) srcInfo
      (TraverseDecls BuildNonImplicitDeclMap ns srcInfo).2.
Proof.
  induction 1 as [|n ns Hn _ IH]; intros srcInfo; simpl.
  - apply records_written_refl.
  - specialize (Hn srcInfo).
    destruct (TraverseDecl BuildNonImplicitDeclMap n srcInfo) as [continue s1].
    simpl in Hn. destruct continue.
    + eapply records_written_trans; [exact Hn|apply IH].
    + simpl. intros key d Hd. destruct (Hn key d Hd) as [?|(info & Hin & Hrest)];
        [by left|]. right. exists info. split; [|done]. apply elem_of_app. by left.
Qed.

Lemma TraverseDecl_records (n : DeclNode Key) (srcInfo : SourceInfo Key) :
  records_written (written_decls n) srcInfo
    (TraverseDecl BuildNonImplicitDeclMap n srcInfo).2.
Proof.
  revert srcInfo. induction n as [info members instantiations IHm _]
    using DeclNode_induction. intros srcInfo.
  rewrite TraverseDecl_unfold. simpl.
  destruct (isImplicit info) eqn:Himpl; simpl.
  - apply records_written_refl.
  - pose proof (TraverseDecls_records members IHm
                  (BuildNonImplicitDeclMap_VisitDecl info srcInfo).2) as Hms.
    simpl in Hms.
    destruct (TraverseDecls BuildNonImplicitDeclMap members _) as [continue s2].
    assert (Hs2 : records_written (info :: flat_map written_decls members) srcInfo s2).
    { intros key d Hd. destruct (Hms key d Hd) as [H1|(i & Hin & Hrest)].
      - simpl in H1. apply emplace_lookup in H1 as [H0|[-> ->]]; [by left|].
        right. exists info. split; [apply elem_of_cons; by left|done].
      - right. exists i. split; [apply elem_of_cons; by right|done]. }
    by destruct continue.
Qed.

Lemma elem_of_flat_map {A B : Type} (f : A → list B) (l : list A) (y : B) :
  y ∈ flat_map f l ↔ ∃ x, x ∈ l ∧ y ∈ f x.
Proof.
  rewrite list_elem_of_In, in_flat_map. split.
  - intros (x & Hx & Hy). exists x. by rewrite !list_elem_of_In.
  - intros (x & Hx & Hy). exists x. by rewrite <- !list_elem_of_In.
Qed.

Lemma written_in_all (n : DeclNode Key) (info : DeclInfo Key) :
  info ∈ written_decls n → info ∈ all_decls n.
Proof.
  revert info. induction n as [info0 members instantiations IHm _]
    using DeclNode_induction. intros info Hin. simpl in *.
  destruct (isImplicit info0); [by apply elem_of_nil in Hin|].
  apply elem_of_cons in Hin as [->|Hin]; [apply elem_of_cons; by left|].
  apply elem_of_cons. right. apply elem_of_app. left.
  apply elem_of_flat_map in Hin as (m & Hm & Hin).
  apply elem_of_flat_map. exists m. split; [done|].
  rewrite Forall_forall in IHm. by apply IHm.
Qed.

Lemma fmap_NoDup_eq {A B : Type} (f : A → B) (l : list A) (x y : A) :
  NoDup (f <$> l) → x ∈ l → y ∈ l → f x = f y → x = y.
Proof.
  induction l as [|a l IH]; intros Hnd Hx Hy Hf; [by apply elem_of_nil in Hx|].
  rewrite fmap_cons in Hnd. apply NoDup_cons in Hnd as [Ha Hnd].
  apply elem_of_cons in Hx as [->|Hx]; apply elem_of_cons in Hy as [->|Hy].
  - done.
  - destruct Ha. rewrite Hf. by apply list_elem_of_fmap_2.
  - destruct Ha. rewrite <- Hf. by apply list_elem_of_fmap_2.
  - by apply IH.
Qed.

(** C6: every entry that [BuildNonImplicitDeclMap] records in
    [srcInfo.nonImplicitDecls] is the entry of a declaration written in the
    source: a node that is not implicit and that is reached from the
    translation unit through members alone, never through an implicit node
    and never through the instantiations of a template. As the nodes of a
    tree have distinct addresses, no implicit node and no node below an
    implicit node or below an instantiation is recorded. *)
Theorem BuildNonImplicitDeclMap_only_written
    (Ctx : ASTContext Key) (key : Key) (d : Decl) :
  nonImplicitDecls (index_declarations Ctx empty_SourceInfo) !! key = Some d →
  (∃ info,
     info ∈ written_decls (getTranslationUnitDecl Ctx) ∧
     isImplicit info = false ∧ decl_addr info = d ∧ makeKey info = key) ∧
  (NoDup (decl_addr <$> all_decls (getTranslationUnitDecl Ctx)) →
   ∀ node,
     node ∈ all_decls (getTranslationUnitDecl Ctx) → decl_addr node = d →
     node ∈ written_decls (getTranslationUnitDecl Ctx) ∧ isImplicit node = false).
Proof.
  intros Hd.
  assert (Hinfo : ∃ info,
            info ∈ written_decls (getTranslationUnitDecl Ctx) ∧
            isImplicit info = false ∧ decl_addr info = d ∧ makeKey info = key).
  { destruct (TraverseDecl_records (getTranslationUnitDecl Ctx) empty_SourceInfo key d Hd)
      as [Hempty|Hinfo]; [|done].
    simpl in Hempty. by rewrite lookup_empty in Hempty. }
  split; [done|].
  intros Hnd node Hnode Haddr.
  destruct Hinfo as (info & Hin & Himpl & Hinfo & _).
  assert (node = info) as ->; [|done].
  apply (fmap_NoDup_eq decl_addr (all_decls (getTranslationUnitDecl Ctx)));
    [done|done|by apply written_in_all|congruence].
Qed.

End IndexerFacts.

(** The index of the example: the implicit declarations 8 and 6 and the
    instantiation 7 are not recorded. *)
Example index_example :
  nonImplicitDecls (index_declarations example_Ctx empty_SourceInfo)
  = {[ 0 := 9%positive; 10 := 5%positive; 20 := 2%positive; 40 := 1%positive ]}.
Proof. vm_compute. reflexivity. Qed.

Lemma BuildNonImplicitDeclMap_only_written_witness :
  (∃ info,
     info ∈ written_decls example_tu ∧
     isImplicit info = false ∧ decl_addr info = 5%positive ∧ makeKey info = 10) ∧
  (NoDup (decl_addr <$> all_decls example_tu) →
   ∀ node,
     node ∈ all_decls example_tu → decl_addr node = 5%positive →
     node ∈ written_decls example_tu ∧ isImplicit node = false).
Proof.
  apply (BuildNonImplicitDeclMap_only_written example_Ctx 10 5%positive).
  vm_compute. reflexivity.
Defined.

End IndexerFacts.

Module ConsumerFacts.
Import Ast Source Consumer.
Section ConsumerFacts.
Context {Key : Type} `{Countable Key} {Ext : Type}.
Variable c : Collaborators Key Ext.

Lemma bind_run {A B : Type} (m : Action Ext A) (k : A → Action Ext B) (r : Run Ext) :
  (m ≫= k) r = match m r with Some (a, r') => k a r' | None => None end.
Proof. reflexivity. Qed.

Lemma for_each_late_parse (fs : list Decl) (r : Run Ext) :
  for_each (λ f, call (EvLateTemplateParser f) (λ w, (tt, LateTemplateParser c f w))) fs r
  = Some (tt, {| clang := parse_all c fs (clang r);
                 trace := trace r ++ (EvLateTemplateParser <$> fs) |}).
Proof.
  revert r. induction fs as [|f fs IH]; intros r; simpl.
  - unfold action_ret. rewrite app_nil_r. by destruct r.
  - unfold action_bind, call at 1. rewrite IH. simpl.
    by rewrite <- app_assoc.
Qed.

Lemma force_late_parsing_run (srcInfo : SourceInfo Key) (r : Run Ext) :
  force_late_parsing c srcInfo r
  = Some (tt,
      {| clang :=
           {| SuppressAllDiagnostics := SuppressAllDiagnostics (clang r);
              rest := rest (parse_all c (delayedParsedFunctions srcInfo)
                              {| SuppressAllDiagnostics := true;
                                 rest := rest (clang r) |}) |};
         trace := trace r ++ [EvSetSuppressAllDiagnostics true]
                    ++ (EvLateTemplateParser <$> delayedParsedFunctions srcInfo)
                    ++ [EvSetSuppressAllDiagnostics (SuppressAllDiagnostics (clang r))] |}).
Proof.
  unfold force_late_parsing.
  rewrite bind_run; simpl. rewrite bind_run; simpl.
  rewrite bind_run, for_each_late_parse; simpl.
  unfold setSuppressAllDiagnostics; simpl.
  by rewrite <- !app_assoc.
Qed.

(** C10: the forced parsing of the late-parsed templates returns and leaves
    the suppress-all-diagnostics flag as it found it, whatever the parser
    does to the front-end state: the flag is set to [true] right before the
    first call of the parser, the parser runs on every function, and the
    value read at the start is written back right after the last call. *)
Theorem force_late_parsing_restores_flag (srcInfo : SourceInfo Key) (r : Run Ext) :
  ∃ r',
    force_late_parsing c srcInfo r = Some (tt, r') ∧
    SuppressAllDiagnostics (clang r') = SuppressAllDiagnostics (clang r) ∧
    rest (clang r') =
      rest (parse_all c (delayedParsedFunctions srcInfo)
              {| SuppressAllDiagnostics := true; rest := rest (clang r) |}) ∧
    trace r' = trace r ++ [EvSetSuppressAllDiagnostics true]
                 ++ (EvLateTemplateParser <$> delayedParsedFunctions srcInfo)
                 ++ [EvSetSuppressAllDiagnostics (SuppressAllDiagnostics (clang r))].
Proof.
  eexists. split; [apply force_late_parsing_run|]. simpl. done.
Qed.

Lemma find_used_run (Ctx : ASTContext Key) (srcInfo : SourceInfo Key) (r : Run Ext) :
  ∃ used srcInfo',
    find_used Ctx srcInfo r
    = Some ((used, srcInfo'), {| clang := clang r; trace := trace r ++ [EvReachability] |}) ∧
    (∀ d, d ∈ used ↔
          Reachability.reachable (uses srcInfo)
            (Reachability.canonical_roots (getCanonicalDecl Ctx) (declsToKeep srcInfo)) d).
Proof.
  destruct (ReachabilityFacts.reachability_phase_correct
              (getCanonicalDecl Ctx) (uses srcInfo) (declsToKeep srcInfo))
    as (marks & s' & Hrun & _ & _ & Hused).
  exists (Reachability.used s'). eexists. split; [|exact Hused].
  unfold find_used. rewrite bind_run; simpl. rewrite bind_run.
  unfold lift_option. rewrite Hrun. reflexivity.
Qed.

Lemma HandleTranslationUnit_run (identifiersToKeep : gset string)
    (Ctx : ASTContext Key) (r : Run Ext) :
  ∃ srcInfo w used removedDecls result r',
    DependenciesCollector_TraverseDecl c (getTranslationUnitDecl Ctx) identifiersToKeep
      (Indexer.index_declarations Ctx empty_SourceInfo) (clang r) = (srcInfo, w) ∧
    (∀ d, d ∈ used ↔
          Reachability.reachable (uses srcInfo)
            (Reachability.canonical_roots (getCanonicalDecl Ctx) (declsToKeep srcInfo)) d) ∧
    HandleTranslationUnit c identifiersToKeep Ctx r = Some (result, r') ∧
    trace r' = trace r
      ++ run_events (delayedParsedFunctions srcInfo) (SuppressAllDiagnostics w)
           used removedDecls ∧
    result = getResult (getRewriteBufferFor_main c (clang r'))
               (getBufferData_main c (clang r')) ∧
    ∃ pruned,
      clang r' =
        applyChanges c
          (ppCallbacks_Finalize c
             (MergeNamespacesVisitor_TraverseDecl c (getTranslationUnitDecl Ctx)
                removedDecls pruned)).
Proof.
  unfold HandleTranslationUnit.
  rewrite bind_run; simpl. rewrite bind_run; simpl. rewrite bind_run.
  unfold collect_dependencies. rewrite bind_run. unfold call at 1. simpl.
  destruct (DependenciesCollector_TraverseDecl c _ _ _ _) as [srcInfo w] eqn:Hdeps.
  rewrite bind_run, force_late_parsing_run; simpl.
  rewrite bind_run.
  match goal with |- context [find_used Ctx srcInfo ?r0] =>
    destruct (find_used_run Ctx srcInfo r0) as (used & srcInfo' & -> & Hused)
  end.
  simpl. rewrite bind_run. unfold call at 1. simpl.
  destruct (OptimizerVisitor_TraverseDecl c _ _ _ _) as [removed1 w1].
  rewrite bind_run. unfold call at 1. simpl.
  destruct (OptimizerVisitor_Finalize c _ _ _ _) as [removed2 w2].
  rewrite bind_run. unfold call at 1. simpl.
  rewrite bind_run. unfold call at 1. simpl.
  rewrite bind_run. unfold call at 1. simpl.
  unfold call. simpl.
  exists srcInfo, w, used, removed2. eexists _, _.
  split; [reflexivity|]. split; [exact Hused|]. split; [reflexivity|].
  simpl. split; [|split; [reflexivity|by exists w2]].
  unfold run_events.
  rewrite <- !app_assoc. simpl. rewrite <- !app_assoc. reflexivity.
Qed.

Lemma phases_late_parsing (fs : list Decl) (tr : list Event) (ps : list Phase) :
  phases tr = DependencyCollection :: ps →
  phases ((EvLateTemplateParser <$> fs) ++ tr) = DependencyCollection :: ps.
Proof.
  intros Htr. induction fs as [|f fs IH]; [done|].
  rewrite fmap_cons, <- app_comm_cons. cbn [phases].
  rewrite IH. reflexivity.
Qed.

Lemma phases_run_events (delayed : list Decl) (suppressAll : bool)
    (used removedDecls : gset Decl) :
  phases (run_events delayed suppressAll used removedDecls) = phase_sequence.
Proof.
  unfold run_events.
  change ([EvIndexDeclarations; EvCollectDependencies; EvSetSuppressAllDiagnostics true]
          ++ ?l) with (EvIndexDeclarations :: EvCollectDependencies
                         :: EvSetSuppressAllDiagnostics true :: l).
  cbn [phases].
  rewrite (phases_late_parsing delayed _
             [ReachabilityComputation; LexicalPruning; NamespaceMerging;
              PreprocessorFinalization; EditApplication; ResultExtraction]);
    reflexivity.
Qed.

(** *** The two halves of [HandleTranslationUnit] *)

Lemma HandleTranslationUnit_split (identifiersToKeep : gset string)
    (Ctx : ASTContext Key) (r : Run Ext) :
  HandleTranslationUnit c identifiersToKeep Ctx r =
    match collect_dependencies c identifiersToKeep Ctx
            (Indexer.index_declarations Ctx empty_SourceInfo)
            {| clang := clang r; trace := trace r ++ [EvIndexDeclarations] |} with
    | Some (srcInfo, r1) => after_collection c Ctx srcInfo r1
    | None => None
    end.
Proof. reflexivity. Qed.

Lemma collect_dependencies_run (identifiersToKeep : gset string)
    (Ctx : ASTContext Key) (srcInfo0 : SourceInfo Key) (r : Run Ext) :
  ∃ srcInfo w,
    DependenciesCollector_TraverseDecl c (getTranslationUnitDecl Ctx) identifiersToKeep
      srcInfo0 (clang r) = (srcInfo, w) ∧
    collect_dependencies c identifiersToKeep Ctx srcInfo0 r =
      Some (srcInfo,
            {| clang := parsed_state c srcInfo w;
               trace := trace r
                 ++ [EvCollectDependencies; EvSetSuppressAllDiagnostics true]
                 ++ (EvLateTemplateParser <$> delayedParsedFunctions srcInfo)
                 ++ [EvSetSuppressAllDiagnostics (SuppressAllDiagnostics w)] |}).
Proof.
  unfold collect_dependencies. rewrite bind_run. unfold call at 1.
  destruct (DependenciesCollector_TraverseDecl c _ _ _ _) as [srcInfo w] eqn:Hdeps.
  exists srcInfo, w. split; [done|].
  rewrite bind_run, force_late_parsing_run; simpl.
  unfold parsed_state. by rewrite <- !app_assoc.
Qed.

Lemma after_collection_run (Ctx : ASTContext Key) (srcInfo : SourceInfo Key) (r : Run Ext) :
  ∃ used srcInfo' removed1 w1 removedDecls w2,
    find_used Ctx srcInfo r
      = Some ((used, srcInfo'),
              {| clang := clang r; trace := trace r ++ [EvReachability] |}) ∧
    (∀ d, d ∈ used ↔
          Reachability.reachable (uses srcInfo)
            (Reachability.canonical_roots (getCanonicalDecl Ctx) (declsToKeep srcInfo)) d) ∧
    OptimizerVisitor_TraverseDecl c (getTranslationUnitDecl Ctx) used ∅ (clang r)
      = (removed1, w1) ∧
    OptimizerVisitor_Finalize c Ctx used removed1 w1 = (removedDecls, w2) ∧
    after_collection c Ctx srcInfo r =
      Some (getResult
              (getRewriteBufferFor_main c
                 (applyChanges c (ppCallbacks_Finalize c
                    (MergeNamespacesVisitor_TraverseDecl c (getTranslationUnitDecl Ctx)
                       removedDecls w2))))
              (getBufferData_main c
                 (applyChanges c (ppCallbacks_Finalize c
                    (MergeNamespacesVisitor_TraverseDecl c (getTranslationUnitDecl Ctx)
                       removedDecls w2)))),
            {| clang :=
                 applyChanges c (ppCallbacks_Finalize c
                   (MergeNamespacesVisitor_TraverseDecl c (getTranslationUnitDecl Ctx)
                      removedDecls w2));
               trace := trace r
                 ++ [EvReachability; EvOptimizerVisitor used; EvOptimizerFinalize;
                     EvMergeNamespaces removedDecls; EvPreprocessorFinalize;
                     EvApplyChanges; EvGetResult] |}).
Proof.
  destruct (find_used_run Ctx srcInfo r) as (used & srcInfo' & Hfind & Hused).
  unfold after_collection. rewrite bind_run, Hfind. simpl.
  rewrite bind_run. unfold call at 1. simpl.
  destruct (OptimizerVisitor_TraverseDecl c _ _ _ _) as [removed1 w1] eqn:Hvisit.
  rewrite bind_run. unfold call at 1. simpl.
  destruct (OptimizerVisitor_Finalize c _ _ _ _) as [removed2 w2] eqn:Hfinal.
  rewrite bind_run. unfold call at 1. simpl.
  rewrite bind_run. unfold call at 1. simpl.
  rewrite bind_run. unfold call at 1. simpl.
  unfold call. simpl.
  exists used, srcInfo', removed1, w1, removed2, w2.
  split; [done|]. split; [done|]. split; [done|]. split; [done|].
  by rewrite <- !app_assoc.
Qed.

Lemma parse_all_app (fs1 fs2 : list Decl) (w : Clang Ext) :
  parse_all c (fs1 ++ fs2) w = parse_all c fs2 (parse_all c fs1 w).
Proof. unfold parse_all. by rewrite foldl_app. Qed.

Lemma not_in_collection_events (e : Event) (fs : list Decl) (b : bool) :
  phase_of e ≠ DeclarationIndexing → phase_of e ≠ DependencyCollection →
  e ∉ [EvIndexDeclarations; EvCollectDependencies; EvSetSuppressAllDiagnostics true]
      ++ (EvLateTemplateParser <$> fs) ++ [EvSetSuppressAllDiagnostics b].
Proof.
  intros H0 H1 Hin.
  repeat (apply elem_of_app in Hin as [Hin|Hin]);
    repeat (apply elem_of_cons in Hin as [->|Hin]; [by (destruct H0 || destruct H1)|]);
    try (by apply elem_of_nil in Hin).
  apply list_elem_of_fmap in Hin as (f & -> & _). by destruct H1.
Qed.

(** C8: a call of [HandleTranslationUnit] returns, having run the phases in
    this order, each on what the one before it has left: the declaration
    index; the dependency collector, started from that index, with the
    forced parsing of the functions it has deferred; the reachability loop
    on the collector's graph and roots; the pruning visitor, given the used
    set and the front-end state after the parsing, and its [Finalize]; the
    namespace visitor, given the removed declarations; [Finalize] of the
    preprocessor callbacks on the state the namespace visitor leaves; one
    [applyChanges] on the state [Finalize] leaves; and the extraction of the
    result from the state [applyChanges] leaves. Its events are those calls
    in that order, each phase once and as one block. *)
Theorem phases_run_in_fixed_sequence (identifiersToKeep : gset string)
    (Ctx : ASTContext Key) (r : Run Ext) :
  ∃ srcInfo w used removed1 w1 removedDecls w2 result r',
    DependenciesCollector_TraverseDecl c (getTranslationUnitDecl Ctx) identifiersToKeep
      (Indexer.index_declarations Ctx empty_SourceInfo) (clang r) = (srcInfo, w) ∧
    (∀ d, d ∈ used ↔
          Reachability.reachable (uses srcInfo)
            (Reachability.canonical_roots (getCanonicalDecl Ctx) (declsToKeep srcInfo)) d) ∧
    OptimizerVisitor_TraverseDecl c (getTranslationUnitDecl Ctx) used ∅
      (parsed_state c srcInfo w) = (removed1, w1) ∧
    OptimizerVisitor_Finalize c Ctx used removed1 w1 = (removedDecls, w2) ∧
    HandleTranslationUnit c identifiersToKeep Ctx r = Some (result, r') ∧
    clang r' =
      applyChanges c
        (ppCallbacks_Finalize c
           (MergeNamespacesVisitor_TraverseDecl c (getTranslationUnitDecl Ctx)
              removedDecls w2)) ∧
    result = getResult (getRewriteBufferFor_main c (clang r'))
               (getBufferData_main c (clang r')) ∧
    trace r' = trace r
      ++ run_events (delayedParsedFunctions srcInfo) (SuppressAllDiagnostics w)
           used removedDecls ∧
    phases (run_events (delayedParsedFunctions srcInfo) (SuppressAllDiagnostics w)
              used removedDecls) = phase_sequence ∧
    (∃ before,
       run_events (delayedParsedFunctions srcInfo) (SuppressAllDiagnostics w)
         used removedDecls =
         before ++ [EvOptimizerVisitor used; EvOptimizerFinalize;
                    EvMergeNamespaces removedDecls; EvPreprocessorFinalize;
                    EvApplyChanges; EvGetResult] ∧
       (EvPreprocessorFinalize ∉ before) ∧ (EvApplyChanges ∉ before)).
Proof.
  rewrite HandleTranslationUnit_split.
  destruct (collect_dependencies_run identifiersToKeep Ctx
              (Indexer.index_declarations Ctx empty_SourceInfo)
              {| clang := clang r; trace := trace r ++ [EvIndexDeclarations] |})
    as (srcInfo & w & Hdeps & ->).
  match goal with |- context [after_collection c Ctx srcInfo ?r1] =>
    destruct (after_collection_run Ctx srcInfo r1)
      as (used & srcInfo' & removed1 & w1 & removedDecls & w2
          & _ & Hused & Hvisit & Hfinal & ->)
  end.
  simpl in Hdeps, Hvisit.
  exists srcInfo, w, used, removed1, w1, removedDecls, w2. eexists _, _.
  split; [exact Hdeps|]. split; [exact Hused|]. split; [exact Hvisit|].
  split; [exact Hfinal|]. split; [reflexivity|]. cbn [clang trace].
  split; [reflexivity|]. split; [reflexivity|].
  split.
  { unfold run_events. rewrite <- !app_assoc. simpl. by rewrite <- ?app_assoc. }
  split; [apply phases_run_events|].
  exists ([EvIndexDeclarations; EvCollectDependencies; EvSetSuppressAllDiagnostics true]
          ++ (EvLateTemplateParser <$> delayedParsedFunctions srcInfo)
          ++ [EvSetSuppressAllDiagnostics (SuppressAllDiagnostics w)]
          ++ [EvReachability]).
  split; [unfold run_events; by rewrite <- !app_assoc|].
  split; intros Hin; rewrite !app_assoc in Hin;
    apply elem_of_app in Hin as [Hin|Hin];
    try (apply list_elem_of_singleton in Hin; discriminate);
    rewrite <- !app_assoc in Hin;
    by apply not_in_collection_events in Hin.
Qed.

(** C7: in a call of [HandleTranslationUnit], the block that collects the
    dependencies ends in a front-end state in which the late template parser
    has run on every function the collector has put into
    [srcInfo.delayedParsedFunctions], each on the state the functions before
    it have left; the reachability loop, and all that follows it, starts
    from that state; the call returns, and in its events the parser's call
    for each function comes after the collector's traversal and before the
    reachability loop. *)
Theorem delayed_functions_parsed_before_reachability
    (identifiersToKeep : gset string) (Ctx : ASTContext Key) (r : Run Ext) :
  ∃ srcInfo w r1 used srcInfo' r2 result r',
    DependenciesCollector_TraverseDecl c (getTranslationUnitDecl Ctx) identifiersToKeep
      (Indexer.index_declarations Ctx empty_SourceInfo) (clang r) = (srcInfo, w) ∧
    collect_dependencies c identifiersToKeep Ctx
      (Indexer.index_declarations Ctx empty_SourceInfo)
      {| clang := clang r; trace := trace r ++ [EvIndexDeclarations] |}
      = Some (srcInfo, r1) ∧
    clang r1 = parsed_state c srcInfo w ∧
    (∀ f, f ∈ delayedParsedFunctions srcInfo →
       ∃ earlier later,
         delayedParsedFunctions srcInfo = earlier ++ f :: later ∧
         rest (clang r1) =
           rest (parse_all c later
                   (LateTemplateParser c f
                      (parse_all c earlier
                         {| SuppressAllDiagnostics := true; rest := rest w |})))) ∧
    find_used Ctx srcInfo r1 = Some ((used, srcInfo'), r2) ∧
    clang r2 = clang r1 ∧
    after_collection c Ctx srcInfo r1 = Some (result, r') ∧
    HandleTranslationUnit c identifiersToKeep Ctx r = Some (result, r') ∧
    ∀ f, f ∈ delayedParsedFunctions srcInfo →
      ∃ before after,
        trace r' = trace r ++ before ++ EvLateTemplateParser f :: after ∧
        EvCollectDependencies ∈ before ∧
        (EvReachability ∉ before) ∧
        EvReachability ∈ after.
Proof.
  rewrite HandleTranslationUnit_split.
  destruct (collect_dependencies_run identifiersToKeep Ctx
              (Indexer.index_declarations Ctx empty_SourceInfo)
              {| clang := clang r; trace := trace r ++ [EvIndexDeclarations] |})
    as (srcInfo & w & Hdeps & ->).
  match goal with |- context [after_collection c Ctx srcInfo ?r1] =>
    destruct (after_collection_run Ctx srcInfo r1)
      as (used & srcInfo' & removed1 & w1 & removedDecls & w2
          & Hfind & _ & _ & _ & Hafter)
  end.
  simpl in Hdeps.
  exists srcInfo, w. eexists. exists used, srcInfo'. eexists _, _, _.
  split; [exact Hdeps|]. split; [reflexivity|]. split; [reflexivity|].
  split.
  { intros f Hf. apply list_elem_of_split in Hf as (l1 & l2 & Hsplit).
    exists l1, l2. split; [done|]. simpl.
    rewrite Hsplit at 1. by rewrite parse_all_app. }
  split; [exact Hfind|]. split; [reflexivity|].
  split; [exact Hafter|]. split; [exact Hafter|].
  intros f Hf. apply list_elem_of_split in Hf as (l1 & l2 & Hsplit).
  exists ([EvIndexDeclarations; EvCollectDependencies; EvSetSuppressAllDiagnostics true]
          ++ (EvLateTemplateParser <$> l1)),
         ((EvLateTemplateParser <$> l2)
          ++ [EvSetSuppressAllDiagnostics (SuppressAllDiagnostics w); EvReachability;
              EvOptimizerVisitor used; EvOptimizerFinalize; EvMergeNamespaces removedDecls;
              EvPreprocessorFinalize; EvApplyChanges; EvGetResult]).
  split; [|split; [|split]].
  - cbn [trace]. rewrite Hsplit, fmap_app, fmap_cons.
    rewrite <- !app_assoc. simpl. rewrite <- ?app_assoc. reflexivity.
  - set_solver.
  - intros Hin. apply elem_of_app in Hin as [Hin|Hin].
    + repeat (apply elem_of_cons in Hin as [Hin|Hin]; [discriminate|]).
      by apply elem_of_nil in Hin.
    + apply list_elem_of_fmap in Hin as (g & Hg & _). discriminate.
  - apply elem_of_app. right. set_solver.
Qed.

(** C5: a call of [HandleTranslationUnit] returns, and when the rewriter has
    no rewrite buffer for the main file and the main-file buffer is valid,
    the text it assigns to [result] is the text of that buffer, unchanged. *)
Theorem unedited_result_is_source
    (identifiersToKeep : gset string) (Ctx : ASTContext Key) (r : Run Ext) :
  (∀ data, getResult None (data, false) = data) ∧
  ∃ result r',
    HandleTranslationUnit c identifiersToKeep Ctx r = Some (result, r') ∧
    ∀ data,
      getRewriteBufferFor_main c (clang r') = None →
      getBufferData_main c (clang r') = (data, false) →
      result = data.
Proof.
  split; [done|].
  destruct (HandleTranslationUnit_run identifiersToKeep Ctx r)
    as (srcInfo & w & used & removed & result & r' & _ & _ & Hrun & _ & Hres & _).
  exists result, r'. split; [done|].
  intros data Hbuf Hdata. by rewrite Hres, Hbuf, Hdata.
Qed.

End ConsumerFacts.

(** The flag is restored also when the parser itself changes it. *)
Example force_late_parsing_example :
  (λ out, SuppressAllDiagnostics (clang out.2)) <$>
    force_late_parsing
      (with_parser (example_collaborators ∅ ∅ []) example_unsuppressing_parser)
      {| uses := ∅; declsToKeep := ∅; delayedParsedFunctions := [2; 3]%positive;
         nonImplicitDecls := ∅ |}
      (example_start EmptyString false true)
  = Some true.
Proof. reflexivity. Qed.

(** The example front end on a unit in which everything is used: no edit is
    scheduled and the result is the text of the main file. *)
Example HandleTranslationUnit_unchanged :
  fst <$> HandleTranslationUnit
            (example_collaborators Reachability.example_uses
               Reachability.example_declsToKeep [2; 3]%positive)
            ∅ example_Ctx_all_used
            (example_start "int main() { f(); g(); }" false false)
  = Some "int main() { f(); g(); }".
Proof. vm_compute. reflexivity. Qed.

(** On the unit of the indexer's example the unused declarations are removed
    and the result is the rewritten text. *)
Example HandleTranslationUnit_rewritten :
  fst <$> HandleTranslationUnit
            (example_collaborators Reachability.example_uses
               Reachability.example_declsToKeep [2; 3]%positive)
            ∅ Indexer.example_Ctx
            (example_start "void h() { h(); } int main() {}" false true)
  = Some "int main() {}".
Proof. vm_compute. reflexivity. Qed.

End ConsumerFacts.

Module DriverFacts.
Import Ast Source Consumer Driver.

(** *** The diagnostic consumer *)

Lemma getErrors_snoc (calls : list ConsumerCall) (call : ConsumerCall) :
  getErrors (calls ++ [call]) = consumer_step (getErrors calls) call.
Proof. unfold getErrors. by rewrite fold_left_app. Qed.

Lemma HandleDiagnostic_error (DiagLevel : Level) (Info : Diagnostic) (errors : list string) :
  level_rank Error ≤ level_rank DiagLevel →
  HandleDiagnostic DiagLevel Info errors =
    errors ++ [(if hasSourceManager Info then location Info +:+ ": " else EmptyString)
               +:+ FormatDiagnostic Info].
Proof. intros Hl. unfold HandleDiagnostic. by rewrite decide_True. Qed.

Lemma HandleDiagnostic_below_error (DiagLevel : Level) (Info : Diagnostic)
    (errors : list string) :
  level_rank DiagLevel < level_rank Error →
  HandleDiagnostic DiagLevel Info errors = errors.
Proof. intros Hl. unfold HandleDiagnostic. rewrite decide_False; [done|lia]. Qed.

(** *** Strings *)

Lemma c_str_nul_free (s : string) : nul_free s = true → c_str s = s.
Proof.
  induction s as [|ch s IH]; simpl; [done|].
  destruct (Ascii.eqb ch "000"); simpl; [done|].
  intros Hs. by rewrite IH.
Qed.

Lemma nul_free_c_str (s : string) : nul_free (c_str s) = true.
Proof.
  induction s as [|ch s IH]; simpl; [done|].
  destruct (Ascii.eqb ch "000") eqn:E; simpl; [done|]. by rewrite E.
Qed.

Lemma nul_free_app (s t : string) :
  nul_free (s +:+ t) = nul_free s && nul_free t.
Proof.
  induction s as [|ch s IH]; simpl; [done|].
  rewrite IH. by rewrite andb_assoc.
Qed.

Lemma carries_nul_free (message text : string) :
  carries message text → nul_free message = true → nul_free text = true.
Proof.
  intros (before & after & ->). rewrite !nul_free_app.
  intros Hm. apply andb_prop in Hm as [_ Hm]. by apply andb_prop in Hm as [Hm _].
Qed.

Lemma string_app_cons (ch : ascii) (s t : string) :
  String ch s +:+ t = String ch (s +:+ t).
Proof. reflexivity. Qed.

Lemma string_app_assoc (s t u : string) : (s +:+ t) +:+ u = s +:+ (t +:+ u).
Proof.
  induction s as [|ch s IH]; [done|].
  by rewrite !string_app_cons, IH.
Qed.

Lemma string_app_nil_r (s : string) : s +:+ EmptyString = s.
Proof.
  induction s as [|ch s IH]; [done|].
  by rewrite string_app_cons, IH.
Qed.

(** The loop that appends the errors, unrolled. *)
Lemma fold_left_append (errors : list string) (message : string) :
  fold_left (λ message error, (message +:+ error) +:+ newline) errors message
  = message +:+ fold_right (λ error rest, error +:+ (newline +:+ rest)) EmptyString errors.
Proof.
  revert message. induction errors as [|e errors IH]; intros message; simpl.
  - by rewrite string_app_nil_r.
  - rewrite IH. by rewrite !string_app_assoc.
Qed.

Lemma failure_message_carries (errors : list string) (error : string) :
  error ∈ errors → carries (failure_message errors) error.
Proof.
  intros Hin. unfold failure_message.
  destruct errors as [|e0 errors0] eqn:E; [by apply elem_of_nil in Hin|].
  rewrite <- E in *. clear E e0 errors0.
  rewrite fold_left_append.
  set (prefix := "Inliner failed." +:+ " The following compilation errors were detected: ").
  clearbody prefix. revert prefix.
  induction errors as [|e errors IH]; intros prefix; [by apply elem_of_nil in Hin|].
  apply elem_of_cons in Hin as [->|Hin]; simpl.
  - exists prefix. eexists. reflexivity.
  - destruct (IH Hin ((prefix +:+ e) +:+ newline)) as (before & after & Heq).
    exists before, after. rewrite <- Heq. by rewrite !string_app_assoc.
Qed.

Lemma failure_message_nul_free (errors : list string) :
  Forall (λ error, nul_free error = true) errors →
  nul_free (failure_message errors) = true.
Proof.
  intros Hall. unfold failure_message.
  destruct errors as [|e0 errors0] eqn:E; [done|].
  rewrite <- E in *. clear E e0 errors0.
  rewrite fold_left_append, nul_free_app. simpl.
  induction Hall as [|e errors He _ IH]; simpl; [done|].
  rewrite !nul_free_app, He. simpl. exact IH.
Qed.

(** *** [doOptimize] *)

Lemma doOptimize_failure (run : ToolRun) :
  ret run ≠ 0%Z →
  doOptimize run = Raised (c_str (failure_message (getErrors (consumer_calls run)))).
Proof. intros Hret. unfold doOptimize. by rewrite decide_True. Qed.

Lemma doOptimize_success (run : ToolRun) :
  ret run = 0%Z →
  doOptimize run = Returned (default EmptyString (assigned_result run)).
Proof. intros Hret. unfold doOptimize. rewrite decide_False; [done|]. by intros []. Qed.

(** [doOptimize] raises exactly when the tool returns nonzero, and then it
    returns no text. *)
Lemma doOptimize_raises_iff (run : ToolRun) :
  (∃ what, doOptimize run = Raised what) ↔ ret run ≠ 0%Z.
Proof.
  split.
  - intros [what Hwhat] Hret. by rewrite (doOptimize_success run Hret) in Hwhat.
  - intros Hret. eexists. by apply doOptimize_failure.
Qed.

(** When no collected error has a NUL character in it, the message of the
    raised error is the whole text built from the errors, and each of them
    occurs in it. *)
Lemma doOptimize_failure_nul_free (run : ToolRun) :
  ret run ≠ 0%Z →
  Forall (λ error, nul_free error = true) (getErrors (consumer_calls run)) →
  doOptimize run = Raised (failure_message (getErrors (consumer_calls run))) ∧
  ∀ error, error ∈ getErrors (consumer_calls run) →
           carries (failure_message (getErrors (consumer_calls run))) error.
Proof.
  intros Hret Hnul. split.
  - rewrite (doOptimize_failure run Hret).
    by rewrite (c_str_nul_free _ (failure_message_nul_free _ Hnul)).
  - intros error. apply failure_message_carries.
Qed.

(** The failed run of the example: both errors are in the message, the
    warning is not, and the text the consumer had assigned is dropped. *)
Example doOptimize_failed_example :
  doOptimize example_failed_run =
    Raised ("Inliner failed. The following compilation errors were detected: "
            +:+ "a.cpp:2:5: expected ';'" +:+ newline
            +:+ "too many errors" +:+ newline).
Proof. vm_compute. reflexivity. Qed.

(** C4, at the failing input: the tool returns 1 and the consumer has
    collected one error, whose text has a NUL character in it. The message of
    the raised error stops before the NUL: the collected error is not in
    it. *)
Theorem doOptimize_truncates_at_nul :
  getErrors (consumer_calls example_nul_run) = ["a.cpp:1:10: " +:+ example_nul_text] ∧
  doOptimize example_nul_run
    = Raised ("Inliner failed. The following compilation errors were detected: "
              +:+ "a.cpp:1:10: 'a") ∧
  ¬ carries ("Inliner failed. The following compilation errors were detected: "
             +:+ "a.cpp:1:10: 'a")
      ("a.cpp:1:10: " +:+ example_nul_text).
Proof.
  split; [reflexivity|]. split; [reflexivity|].
  intros Hc. apply carries_nul_free in Hc; [discriminate|reflexivity].
Qed.

(** *** Failure of the result extraction *)

Lemma getResult_invalid (data : string) :
  getResult None (data, true) = "Inliner error".
Proof. reflexivity. Qed.

Section ExtractionFailure.
Context {Key : Type} `{Countable Key} {Ext : Type}.
Variable c : Collaborators Key Ext.

(** C9: a call of [HandleTranslationUnit] returns, and when there is no
    rewrite buffer for the main file and the main-file buffer cannot be
    obtained, the text it assigns to [result] is the descriptive string
    "Inliner error", whatever the buffer holds, and not source text.
    [doOptimize] passes what the consumer has assigned on as it is: with
    that string assigned, a call of [doOptimize] either raises, when the
    tool returns non-zero, or hands the caller exactly "Inliner error"; in
    neither case does the caller receive partial output. *)
Theorem extraction_failure_yields_error_text
    (identifiersToKeep : gset string) (Ctx : ASTContext Key) (r : Run Ext) :
  ∃ result r',
    HandleTranslationUnit c identifiersToKeep Ctx r = Some (result, r') ∧
    ∀ data,
      getRewriteBufferFor_main c (clang r') = None →
      getBufferData_main c (clang r') = (data, true) →
      result = "Inliner error" ∧
      ∀ run,
        assigned_result run = Some result →
        (ret run = 0%Z → doOptimize run = Returned "Inliner error") ∧
        (ret run ≠ 0%Z → ∃ what, doOptimize run = Raised what).
Proof.
  destruct (ConsumerFacts.HandleTranslationUnit_run c identifiersToKeep Ctx r)
    as (srcInfo & w & used & removed & result & r' & _ & _ & Hrun & _ & Hres & _).
  exists result, r'. split; [done|].
  intros data Hbuf Hdata.
  assert (Herr : result = "Inliner error") by (by rewrite Hres, Hbuf, Hdata).
  split; [done|]. intros run Hassigned. split.
  - intros Hret. rewrite (doOptimize_success run Hret), Hassigned. simpl. by rewrite Herr.
  - intros Hret. by apply doOptimize_raises_iff.
Qed.

End ExtractionFailure.

(** The example front end with an invalid main-file buffer and nothing to
    remove: the consumer assigns the error string, and [doOptimize] hands it
    on unchanged when the tool returns 0. *)
Example extraction_failure_example :
  fst <$> HandleTranslationUnit
            (example_collaborators Reachability.example_uses
               Reachability.example_declsToKeep [])
            ∅ example_Ctx_all_used (example_start EmptyString true false)
  = Some "Inliner error" ∧
  doOptimize {| ret := 0; consumer_calls := [];
                assigned_result := Some "Inliner error" |}
  = Returned "Inliner error".
Proof. split; vm_compute; reflexivity. Qed.

End DriverFacts.

(** ** Further properties of the reachability phase *)

Module ReachabilityProps.
Import Reachability ReachabilityInv ReachabilityFacts ReachabilityFootprint.

(** A property that every iteration keeps holds when the loop returns. *)
Lemma bfs_loop_preserves (P : BfsState → Prop) :
  (∀ d s, P s → d ∈ queue s → P (visit d s)) →
  ∀ fuel s marks s', P s → bfs_loop fuel s = Some (marks, s') → P s'.
Proof.
  intros Hstep fuel. induction fuel as [|fuel IH]; intros s marks s' HP Hrun.
  - simpl in Hrun. destruct (queue_begin (queue s)); [done|]. by injection Hrun as <- <-.
  - destruct (queue_begin (queue s)) as [d|] eqn:Hb.
    + rewrite (bfs_loop_unfold fuel s d Hb) in Hrun.
      destruct (bfs_loop fuel (visit d s)) as [[marks1 s1]|] eqn:Hrec; [|done].
      injection Hrun as <- <-.
      apply (IH (visit d s) marks1 s1); [|done].
      apply Hstep; [done|]. by apply queue_begin_Some.
    + simpl in Hrun. rewrite Hb in Hrun. by injection Hrun as <- <-.
Qed.

Lemma reachable_mono (g1 g2 : References) (roots1 roots2 : gset Decl) (d : Decl) :
  roots1 ⊆ roots2 → (∀ a, successors g1 a ⊆ successors g2 a) →
  reachable g1 roots1 d → reachable g2 roots2 d.
Proof.
  intros Hroots Hedges (r & Hr & Hpath). exists r. split; [by apply Hroots|].
  clear Hr. induction Hpath as [x|x y z Hxy _ IH]; [apply rtc_refl|].
  eapply rtc_l; [|exact IH]. by apply Hedges.
Qed.

(** X1: the phase returns a set that holds the canonical declaration of every
    declaration to keep and that is closed under the edges of the graph: a
    declaration used by a used declaration is used. *)
Theorem used_contains_roots_and_is_closed
    (getCanonicalDecl : Decl → Decl) (uses0 : References) (declsToKeep : gset Decl) :
  ∃ marks s',
    reachability_phase getCanonicalDecl uses0 declsToKeep = Some (marks, s') ∧
    (∀ decl, decl ∈ declsToKeep → getCanonicalDecl decl ∈ used s') ∧
    (∀ a b, a ∈ used s' → b ∈ successors uses0 a → b ∈ used s').
Proof.
  destruct (reachability_phase_correct getCanonicalDecl uses0 declsToKeep)
    as (marks & s' & Hrun & [_ Hroots Hclosed _] & Hq & _).
  exists marks, s'. split; [done|]. rewrite Hq in *. split.
  - intros decl Hdecl.
    assert (getCanonicalDecl decl ∈ canonical_roots getCanonicalDecl declsToKeep)
      by (apply elem_of_map; by exists decl).
    set_solver.
  - intros a b Ha Hb. specialize (Hclosed a Ha b Hb). set_solver.
Qed.

(** X2: whatever the graph, with nothing to keep the loop body never runs:
    nothing is marked, nothing is used, and the graph is left as it was. *)
Theorem nothing_kept_nothing_used (getCanonicalDecl : Decl → Decl) (uses0 : References) :
  reachability_phase getCanonicalDecl uses0 ∅
  = Some ([], {| queue := ∅; used := ∅; uses := uses0 |}).
Proof.
  unfold reachability_phase, initial_state, initial_queue.
  rewrite set_fold_empty. simpl.
  destruct (bfs_fuel uses0 ∅); reflexivity.
Qed.

(** X3: a used declaration is the canonical declaration of a declaration to
    keep or the target of an edge of the graph; any other declaration is
    unused, whatever the graph holds under its key. *)
Theorem used_within_roots_and_targets
    (getCanonicalDecl : Decl → Decl) (uses0 : References) (declsToKeep : gset Decl) :
  ∃ marks s',
    reachability_phase getCanonicalDecl uses0 declsToKeep = Some (marks, s') ∧
    ∀ d, d ∈ used s' →
         (∃ decl, decl ∈ declsToKeep ∧ d = getCanonicalDecl decl) ∨
         (∃ a, a ∈ used s' ∧ d ∈ successors uses0 a).
Proof.
  destruct (reachability_phase_correct getCanonicalDecl uses0 declsToKeep)
    as (marks & s' & Hrun & _ & _ & Hused).
  exists marks, s'. split; [done|].
  intros d Hd. apply Hused in Hd as (r & Hr & Hpath).
  apply rtc_inv_r in Hpath as [<-|(a & Hra & Hedge)].
  - left. apply elem_of_map in Hr as (decl & -> & Hdecl). by exists decl.
  - right. exists a. split; [|done]. apply Hused. by exists r.
Qed.

Lemma visit_footprint (g : References) (d : Decl) (s : BfsState) :
  subscript_footprint g s → subscript_footprint g (visit d s).
Proof.
  intros Hfp. destruct (decide (d ∈ used s)) as [Hd|Hd].
  - by rewrite (visit_skip d s Hd).
  - rewrite (visit_expand d s Hd). intros x. simpl.
    assert (Hsucc : successors (uses s) d = successors g d).
    { unfold successors. rewrite (Hfp d). by rewrite decide_False. }
    rewrite Hsucc. destruct (decide (x = d)) as [->|Hne].
    + rewrite lookup_insert_eq. rewrite decide_True; [done|set_solver].
    + rewrite lookup_insert_ne by done. rewrite (Hfp x).
      destruct (decide (x ∈ used s)).
      * rewrite decide_True; [done|set_solver].
      * rewrite decide_False; [done|set_solver].
Qed.

(** X4: the subscripts of the loop change [srcInfo.uses] in one way only:
    every used declaration that had no entry gets an empty one. After the
    phase a used declaration has an entry holding its successors, every
    other key is as before, and the keys are the old keys and the used
    declarations. *)
Theorem subscripts_add_empty_entries_for_used
    (getCanonicalDecl : Decl → Decl) (uses0 : References) (declsToKeep : gset Decl) :
  ∃ marks s',
    reachability_phase getCanonicalDecl uses0 declsToKeep = Some (marks, s') ∧
    (∀ d, d ∈ used s' → uses s' !! d = Some (default ∅ (uses0 !! d))) ∧
    (∀ d, d ∉ used s' → uses s' !! d = uses0 !! d) ∧
    (∀ d X, uses0 !! d = Some X → uses s' !! d = Some X) ∧
    dom (uses s') = dom uses0 ∪ used s'.
Proof.
  destruct (reachability_phase_returns getCanonicalDecl uses0 declsToKeep)
    as (marks & s' & Hrun).
  exists marks, s'. split; [done|].
  assert (Hfp : subscript_footprint uses0 s').
  { unfold reachability_phase in Hrun.
    eapply (bfs_loop_preserves (subscript_footprint uses0)); [| |exact Hrun].
    - intros d s Hs _. by apply visit_footprint.
    - intros d. simpl. by rewrite decide_False by set_solver. }
  split; [|split; [|split]].
  - intros d Hd. rewrite (Hfp d). by rewrite decide_True.
  - intros d Hd. rewrite (Hfp d). by rewrite decide_False.
  - intros d X HX. rewrite (Hfp d). destruct (decide (d ∈ used s')); [|done].
    unfold successors. by rewrite HX.
  - apply set_eq. intros d. rewrite elem_of_union, !elem_of_dom, (Hfp d).
    destruct (decide (d ∈ used s')) as [Hd|Hd].
    + split; [by right|]. intros _. by eexists.
    + split; [by left|]. by intros [?|?].
Qed.

(** X5: the used set grows with the declarations to keep and with the edges
    of the graph: keeping more, or depending on more, never makes a
    declaration unused. *)
Theorem used_monotone
    (getCanonicalDecl : Decl → Decl) (uses1 uses2 : References)
    (declsToKeep1 declsToKeep2 : gset Decl) :
  ∃ marks1 s1 marks2 s2,
    reachability_phase getCanonicalDecl uses1 declsToKeep1 = Some (marks1, s1) ∧
    reachability_phase getCanonicalDecl uses2 declsToKeep2 = Some (marks2, s2) ∧
    (declsToKeep1 ⊆ declsToKeep2 →
     (∀ a, successors uses1 a ⊆ successors uses2 a) →
     used s1 ⊆ used s2).
Proof.
  destruct (reachability_phase_correct getCanonicalDecl uses1 declsToKeep1)
    as (marks1 & s1 & Hrun1 & _ & _ & Hused1).
  destruct (reachability_phase_correct getCanonicalDecl uses2 declsToKeep2)
    as (marks2 & s2 & Hrun2 & _ & _ & Hused2).
  exists marks1, s1, marks2, s2. split; [done|]. split; [done|].
  intros Hkeep Hedges d Hd. apply Hused2. apply Hused1 in Hd.
  eapply reachable_mono; [|exact Hedges|exact Hd].
  unfold canonical_roots. set_solver.
Qed.

(** X14: with a [getCanonicalDecl] that maps a canonical declaration to
    itself, a second run of the phase, with the same [getCanonicalDecl], on
    the graph as the first run left it and with the used declarations as the
    declarations to keep, returns a used set that contains the first one;
    the two are equal exactly when the canonical declaration of every used
    declaration is used. *)
Theorem used_is_fixed_point
    (getCanonicalDecl : Decl → Decl) (uses0 : References) (declsToKeep : gset Decl)
    (Hcanonical : ∀ d, getCanonicalDecl (getCanonicalDecl d) = getCanonicalDecl d) :
  ∃ marks1 s1 marks2 s2,
    reachability_phase getCanonicalDecl uses0 declsToKeep = Some (marks1, s1) ∧
    reachability_phase getCanonicalDecl (uses s1) (used s1) = Some (marks2, s2) ∧
    used s1 ⊆ used s2 ∧
    (used s2 = used s1 ↔ ∀ d, d ∈ used s1 → getCanonicalDecl d ∈ used s1).
Proof.
  destruct (reachability_phase_correct getCanonicalDecl uses0 declsToKeep)
    as (marks1 & s1 & Hrun1 & [Hg _ Hclosed _] & Hq & Hused1).
  destruct (reachability_phase_correct getCanonicalDecl (uses s1) (used s1))
    as (marks2 & s2 & Hrun2 & _ & _ & Hused2).
  exists marks1, s1, marks2, s2. split; [done|]. split; [done|].
  assert (Hsub : used s1 ⊆ used s2).
  { intros d Hd. apply Hused2. apply Hused1 in Hd as (r & Hr & Hpath).
    exists r. split.
    - apply elem_of_map in Hr as (x & -> & Hx). apply elem_of_map.
      exists (getCanonicalDecl x). split; [by rewrite Hcanonical|].
      apply Hused1, reachable_root. apply elem_of_map. by exists x.
    - clear Hr. induction Hpath as [x|x y z Hxy _ IH]; [apply rtc_refl|].
      eapply rtc_l; [|exact IH]. unfold edge. by rewrite Hg. }
  split; [exact Hsub|]. split.
  - intros Heq d Hd. rewrite <- Heq. apply Hused2, reachable_root.
    apply elem_of_map. by exists d.
  - intros Hcanon. apply set_eq. intros d. split; [|apply Hsub].
    intros Hd. apply Hused2 in Hd as (r & Hr & Hpath).
    assert (Hru : r ∈ used s1).
    { apply elem_of_map in Hr as (x & -> & Hx). by apply Hcanon. }
    clear Hr. induction Hpath as [x|x y z Hxy _ IH]; [done|].
    apply IH. unfold edge in Hxy. rewrite Hg in Hxy.
    specialize (Hclosed x Hru y Hxy). rewrite Hq in Hclosed. set_solver.
Qed.

(** On the example, where [main], [f] and [g] are canonical, the second run
    returns the used set of the first. *)
Lemma used_is_fixed_point_witness :
  (∀ d, example_canonical (example_canonical d) = example_canonical d) ∧
  ∃ marks1 s1 marks2 s2,
    reachability_phase example_canonical example_uses example_declsToKeep
      = Some (marks1, s1) ∧
    reachability_phase example_canonical (uses s1) (used s1) = Some (marks2, s2) ∧
    used s1 ⊆ used s2 ∧
    (used s2 = used s1 ↔ ∀ d, d ∈ used s1 → example_canonical d ∈ used s1).
Proof.
  assert (Hcanonical :
    ∀ d, example_canonical (example_canonical d) = example_canonical d).
  { intros d. unfold example_canonical. repeat case_decide; congruence. }
  split; [exact Hcanonical|].
  exact (used_is_fixed_point example_canonical example_uses example_declsToKeep
           Hcanonical).
Defined.

(** A used declaration that is not canonical: the first run keeps [f] and
    the redeclaration of [main] it refers to; the second run adds the
    canonical declaration of [main]. *)
Example second_run_adds_canonical :
  snd <$> reachability_phase example_canonical
            ReachabilityFootprint.example_redeclared_uses {[ 2%positive ]}
  = Some {| queue := ∅;
            used := {[ 2%positive; 5%positive ]};
            uses := <[ 5%positive := ∅ ]> ReachabilityFootprint.example_redeclared_uses |} ∧
  (used ∘ snd) <$> reachability_phase example_canonical
                     (<[ 5%positive := ∅ ]> ReachabilityFootprint.example_redeclared_uses)
                     {[ 2%positive; 5%positive ]}
  = Some {[ 1%positive; 2%positive; 5%positive ]}.
Proof. split; vm_compute; reflexivity. Qed.

End ReachabilityProps.

(** ** Further properties of the declaration indexer *)

Module IndexerProps.
Import Ast Source Indexer IndexFold IndexerFacts.
Section IndexerProps.
Context {Key : Type} `{Countable Key}.

Lemma with_index_same (srcInfo : SourceInfo Key) :
  with_index srcInfo (nonImplicitDecls srcInfo) = srcInfo.
Proof. by destruct srcInfo. Qed.

Lemma index_fold_app (m : gmap Key Decl) (l1 l2 : list (DeclInfo Key)) :
  index_fold m (l1 ++ l2) = index_fold (index_fold m l1) l2.
Proof. unfold index_fold. by rewrite foldl_app. Qed.

Lemma TraverseDecls_fold (ns : list (DeclNode Key)) :
  Forall (λ n, ∀ srcInfo,
            TraverseDecl BuildNonImplicitDeclMap n srcInfo =
              (true, with_index srcInfo
                       (index_fold (nonImplicitDecls srcInfo) (written_decls n)))) ns →
  ∀ srcInfo,
    TraverseDecls BuildNonImplicitDeclMap ns srcInfo =
      (true, with_index srcInfo
               (index_fold (nonImplicitDecls srcInfo) (flat_map written_decls ns))).
Proof.
  induction 1 as [|n ns Hn _ IH]; intros srcInfo; simpl.
  - by rewrite with_index_same.
  - rewrite Hn, IH. simpl. by rewrite index_fold_app.
Qed.

(** The traversal of the indexer is never aborted, and what it does to the
    map is an [emplace] for each written declaration, in the order in which
    the declarations are met. *)
Lemma TraverseDecl_fold (n : DeclNode Key) (srcInfo : SourceInfo Key) :
  TraverseDecl BuildNonImplicitDeclMap n srcInfo =
    (true, with_index srcInfo
             (index_fold (nonImplicitDecls srcInfo) (written_decls n))).
Proof.
  revert srcInfo. induction n as [info members instantiations IHm _]
    using DeclNode_induction. intros srcInfo.
  rewrite TraverseDecl_unfold. simpl.
  destruct (isImplicit info); simpl.
  - by rewrite with_index_same.
  - by rewrite (TraverseDecls_fold members IHm).
Qed.

Lemma emplace_keeps (key key' : Key) (decl d : Decl) (m : gmap Key Decl) :
  m !! key' = Some d → emplace key decl m !! key' = Some d.
Proof.
  intros Hm. unfold emplace. destruct (m !! key) eqn:E; [done|].
  rewrite lookup_insert_ne; [done|]. intros <-. congruence.
Qed.

Lemma emplace_fresh (key : Key) (decl : Decl) (m : gmap Key Decl) :
  m !! key = None → emplace key decl m !! key = Some decl.
Proof. intros Hm. unfold emplace. rewrite Hm. apply lookup_insert_eq. Qed.

Lemma emplace_other (key key' : Key) (decl : Decl) (m : gmap Key Decl) :
  key ≠ key' → emplace key decl m !! key' = m !! key'.
Proof.
  intros Hne. unfold emplace. destruct (m !! key); [done|].
  by rewrite lookup_insert_ne.
Qed.

Lemma index_fold_keeps (decls : list (DeclInfo Key)) (m : gmap Key Decl)
    (key : Key) (d : Decl) :
  m !! key = Some d → index_fold m decls !! key = Some d.
Proof.
  revert m. induction decls as [|info decls IH]; intros m Hm; simpl; [done|].
  apply IH. by apply emplace_keeps.
Qed.

Lemma index_fold_absent (decls : list (DeclInfo Key)) (m : gmap Key Decl) (key : Key) :
  m !! key = None → (∀ info, info ∈ decls → makeKey info ≠ key) →
  index_fold m decls !! key = None.
Proof.
  revert m. induction decls as [|info decls IH]; intros m Hm Hfresh; simpl; [done|].
  apply IH.
  - rewrite emplace_other; [done|]. apply Hfresh. apply elem_of_cons. by left.
  - intros i Hi. apply Hfresh. apply elem_of_cons. by right.
Qed.

(** X6: the indexer only adds to [srcInfo.nonImplicitDecls]: an entry that is
    in the map stays as it is, also when a written declaration has the same
    key, and the other members of [srcInfo] are not touched. *)
Theorem index_keeps_entries (Ctx : ASTContext Key) (srcInfo : SourceInfo Key) :
  uses (index_declarations Ctx srcInfo) = uses srcInfo ∧
  declsToKeep (index_declarations Ctx srcInfo) = declsToKeep srcInfo ∧
  delayedParsedFunctions (index_declarations Ctx srcInfo)
    = delayedParsedFunctions srcInfo ∧
  ∀ key d,
    nonImplicitDecls srcInfo !! key = Some d →
    nonImplicitDecls (index_declarations Ctx srcInfo) !! key = Some d.
Proof.
  unfold index_declarations. rewrite TraverseDecl_fold. simpl.
  split; [done|]. split; [done|]. split; [done|].
  intros key d. apply index_fold_keeps.
Qed.

(** X7: after the indexing of a translation unit into an empty map, the key
    of every written declaration is bound, and it is bound to the first
    written declaration that has this key, in the order of the traversal
    (a declaration before its members, members in their order). *)
Theorem index_binds_first_written (Ctx : ASTContext Key) :
  (∀ info,
     info ∈ written_decls (getTranslationUnitDecl Ctx) →
     is_Some (nonImplicitDecls (index_declarations Ctx empty_SourceInfo)
                !! makeKey info)) ∧
  (∀ earlier info later,
     written_decls (getTranslationUnitDecl Ctx) = earlier ++ info :: later →
     (∀ other, other ∈ earlier → makeKey other ≠ makeKey info) →
     nonImplicitDecls (index_declarations Ctx empty_SourceInfo) !! makeKey info
     = Some (decl_addr info)).
Proof.
  unfold index_declarations. rewrite TraverseDecl_fold. simpl. split.
  - intros info Hin. apply list_elem_of_split in Hin as (l1 & l2 & ->).
    rewrite index_fold_app. simpl.
    destruct (index_fold ∅ l1 !! makeKey info) as [d|] eqn:E.
    + exists d. apply index_fold_keeps. by apply emplace_keeps.
    + exists (decl_addr info). apply index_fold_keeps. by apply emplace_fresh.
  - intros earlier info later -> Hfresh.
    rewrite index_fold_app. simpl.
    apply index_fold_keeps, emplace_fresh, index_fold_absent; [apply lookup_empty|done].
Qed.

End IndexerProps.

(** Two written declarations with the same key: the one that comes first
    is recorded. *)
Example index_first_wins_example :
  nonImplicitDecls
    (index_declarations
       {| getTranslationUnitDecl :=
            Node (mkDecl 9%positive false 0)
              [ Node (mkDecl 2%positive false 20) [] [];
                Node (mkDecl 3%positive false 20) [] [] ] [];
          getCanonicalDecl := id |}
       empty_SourceInfo)
  = {[ 0 := 9%positive; 20 := 2%positive ]}.
Proof. vm_compute. reflexivity. Qed.

End IndexerProps.

(** ** Further properties of the driver *)

Module DriverProps.
Import Driver DriverText DriverFacts.

Lemma consumer_step_no_clear (calls : list ConsumerCall) (errors : list string) :
  CallClear ∉ calls →
  fold_left consumer_step calls errors = errors ++ omap collected calls.
Proof.
  revert errors. induction calls as [|call calls IH]; intros errors Hnc; simpl.
  - by rewrite app_nil_r.
  - rewrite IH by (intros Hin; apply Hnc; apply elem_of_cons; by right).
    destruct call as [level Info|]; [|destruct Hnc; apply elem_of_cons; by left].
    simpl. unfold HandleDiagnostic, diagnostic_message.
    destruct level; simpl; by rewrite <- ?app_assoc.
Qed.

(** X8: the errors the collector holds are those reported since the last
    [clear]: a [clear] drops everything collected before it, and without a
    [clear] the errors are the texts of the diagnostics of level Error or
    Fatal, in the order of their arrival, each with its location in front
    when the diagnostic has a source manager; a diagnostic below Error adds
    nothing. *)
Theorem getErrors_since_last_clear :
  (∀ before after, getErrors (before ++ CallClear :: after) = getErrors after) ∧
  (∀ calls, CallClear ∉ calls → getErrors calls = omap collected calls).
Proof.
  split.
  - intros before after. unfold getErrors. by rewrite fold_left_app.
  - intros calls Hnc. unfold getErrors. by rewrite consumer_step_no_clear.
Qed.

(** X9: [doOptimize] returns a text exactly when the tool returns 0, and
    raises exactly when the tool returns something else. The text is what the
    consumer assigned to [result], or the empty string when it assigned
    nothing; errors collected in a run that returns 0 are dropped. *)
Theorem doOptimize_outcome (run : ToolRun) :
  ((∃ what, doOptimize run = Raised what) ↔ ret run ≠ 0%Z) ∧
  ((∃ text, doOptimize run = Returned text) ↔ ret run = 0%Z) ∧
  (∀ text, doOptimize run = Returned text →
           text = default EmptyString (assigned_result run)).
Proof.
  unfold doOptimize. destruct (decide (ret run ≠ 0%Z)) as [Hne|Heq].
  - split; [|split].
    + split; [done|]. intros _. by eexists.
    + split; [by intros [text Htext]|done].
    + by intros text Htext.
  - assert (ret run = 0%Z) as Hret by (destruct (decide (ret run = 0%Z)); [done|by destruct Heq]).
    split; [|split].
    + split; [by intros [what Hwhat]|done].
    + split; [done|]. intros _. by eexists.
    + intros text [= <-]. done.
Qed.

Lemma c_str_app_nul_free (prefix s : string) :
  nul_free prefix = true → c_str (prefix +:+ s) = prefix +:+ c_str s.
Proof.
  induction prefix as [|ch prefix IH]; [done|].
  rewrite !string_app_cons. simpl.
  destruct (Ascii.eqb ch "000"); simpl; [done|].
  intros Hp. by rewrite IH.
Qed.

Lemma failure_message_aggregate (errors : list string) :
  failure_message errors = aggregate errors.
Proof.
  unfold failure_message, aggregate.
  destruct errors as [|e errors]; [done|].
  rewrite fold_left_append. reflexivity.
Qed.

(** X10: the message of the error [doOptimize] raises always starts with
    "Inliner failed."; when no error was collected that is the whole
    message, otherwise the list of the errors is announced next. *)
Theorem failure_message_shape (run : ToolRun) :
  ret run ≠ 0%Z →
  ∃ tail,
    doOptimize run = Raised ("Inliner failed." +:+ tail) ∧
    (getErrors (consumer_calls run) = [] → tail = EmptyString) ∧
    (getErrors (consumer_calls run) ≠ [] →
     ∃ rest, tail = " The following compilation errors were detected: " +:+ rest).
Proof.
  intros Hret. rewrite (doOptimize_failure run Hret), failure_message_aggregate.
  destruct (getErrors (consumer_calls run)) as [|e errors].
  - exists EmptyString. split; [reflexivity|]. split; [done|]. by intros [].
  - exists (" The following compilation errors were detected: "
            +:+ c_str (error_lines (e :: errors))).
    split; [|split; [done|]].
    + unfold aggregate.
      rewrite (c_str_app_nul_free
                 "Inliner failed. The following compilation errors were detected: ")
        by reflexivity.
      reflexivity.
    + intros _. by eexists.
Qed.

Lemma failure_message_shape_witness :
  ∃ tail,
    doOptimize example_failed_run = Raised ("Inliner failed." +:+ tail) ∧
    (getErrors (consumer_calls example_failed_run) = [] → tail = EmptyString) ∧
    (getErrors (consumer_calls example_failed_run) ≠ [] →
     ∃ rest, tail = " The following compilation errors were detected: " +:+ rest).
Proof. apply (failure_message_shape example_failed_run). discriminate. Defined.

Lemma error_lines_carries (errors : list string) (error : string) :
  error ∈ errors →
  ∃ before after, error_lines errors = before +:+ (error +:+ newline) +:+ after.
Proof.
  induction errors as [|e errors IH]; intros Hin; [by apply elem_of_nil in Hin|].
  apply elem_of_cons in Hin as [->|Hin]; simpl.
  - exists EmptyString, (error_lines errors). simpl. by rewrite string_app_assoc.
  - destruct (IH Hin) as (before & after & ->).
    exists (e +:+ newline +:+ before), after. by rewrite !string_app_assoc.
Qed.

(** X11: when no collected error has a NUL character in it, the message of
    the raised error is "Inliner failed." alone if nothing was collected,
    and otherwise the announcement followed by every collected error, in the
    order of collection, each ended by a newline. *)
Theorem failure_message_lists_errors (run : ToolRun) :
  ret run ≠ 0%Z →
  Forall (λ error, nul_free error = true) (getErrors (consumer_calls run)) →
  doOptimize run = Raised (aggregate (getErrors (consumer_calls run))) ∧
  ∀ error, error ∈ getErrors (consumer_calls run) →
           carries (aggregate (getErrors (consumer_calls run))) (error +:+ newline).
Proof.
  intros Hret Hnul. split.
  - rewrite (doOptimize_failure run Hret).
    rewrite (c_str_nul_free _ (failure_message_nul_free _ Hnul)).
    by rewrite failure_message_aggregate.
  - intros error Hin. unfold aggregate.
    destruct (getErrors (consumer_calls run)) as [|e errors] eqn:E;
      [by apply elem_of_nil in Hin|].
    destruct (error_lines_carries _ _ Hin) as (before & after & ->).
    exists ("Inliner failed. The following compilation errors were detected: "
            +:+ before), after.
    by rewrite !string_app_assoc.
Qed.

Lemma failure_message_lists_errors_witness :
  doOptimize example_failed_run
    = Raised (aggregate (getErrors (consumer_calls example_failed_run))) ∧
  ∀ error, error ∈ getErrors (consumer_calls example_failed_run) →
           carries (aggregate (getErrors (consumer_calls example_failed_run)))
             (error +:+ newline).
Proof.
  apply (failure_message_lists_errors example_failed_run).
  - discriminate.
  - vm_compute. repeat constructor.
Defined.

End DriverProps.

(** ** Further properties of the consumer *)

Module ConsumerProps.
Import Ast Source Consumer ConsumerFacts.
Section ConsumerProps.
Context {Key : Type} `{Countable Key} {Ext : Type}.
Variable c : Collaborators Key Ext.

(** X12: what [HandleTranslationUnit] assigns to [result] is, in this order
    of precedence: the rewrite buffer of the main file when there is one,
    also when the main-file buffer is invalid; else the text of the main-file
    buffer when it is valid; else the string "Inliner error". *)
Theorem result_by_precedence
    (identifiersToKeep : gset string) (Ctx : ASTContext Key) (r : Run Ext) :
  ∃ result r',
    HandleTranslationUnit c identifiersToKeep Ctx r = Some (result, r') ∧
    (∀ buf, getRewriteBufferFor_main c (clang r') = Some buf → result = buf) ∧
    (∀ data invalid,
       getRewriteBufferFor_main c (clang r') = None →
       getBufferData_main c (clang r') = (data, invalid) →
       result = if invalid then "Inliner error" else data).
Proof.
  destruct (HandleTranslationUnit_run c identifiersToKeep Ctx r)
    as (srcInfo & w & used & removed & result & r' & _ & _ & Hrun & _ & Hres & _).
  exists result, r'. split; [done|]. split.
  - intros buf Hbuf. by rewrite Hres, Hbuf.
  - intros data invalid Hbuf Hdata. by rewrite Hres, Hbuf, Hdata.
Qed.

(** X13: how the phases of [HandleTranslationUnit] feed each other. The
    dependency collector starts from the index of the translation unit; the
    pruning visitor is given exactly the declarations reachable in the
    collector's graph from the canonical declarations of the collector's
    roots, an empty set of removed declarations, and a front end whose
    suppression flag is the one the collector left; [Finalize] of the visitor
    continues with the visitor's removed set, and the namespace visitor is
    given the set [Finalize] returns. *)
Theorem phases_feed_each_other
    (identifiersToKeep : gset string) (Ctx : ASTContext Key) (r : Run Ext) :
  ∃ srcInfo w used removed1 w1 removedDecls w2 result r',
    DependenciesCollector_TraverseDecl c (getTranslationUnitDecl Ctx) identifiersToKeep
      (Indexer.index_declarations Ctx empty_SourceInfo) (clang r) = (srcInfo, w) ∧
    (∀ d, d ∈ used ↔
          Reachability.reachable (uses srcInfo)
            (Reachability.canonical_roots (getCanonicalDecl Ctx) (declsToKeep srcInfo)) d) ∧
    OptimizerVisitor_TraverseDecl c (getTranslationUnitDecl Ctx) used ∅
      {| SuppressAllDiagnostics := SuppressAllDiagnostics w;
         rest := rest (parse_all c (delayedParsedFunctions srcInfo)
                         {| SuppressAllDiagnostics := true; rest := rest w |}) |}
      = (removed1, w1) ∧
    OptimizerVisitor_Finalize c Ctx used removed1 w1 = (removedDecls, w2) ∧
    HandleTranslationUnit c identifiersToKeep Ctx r = Some (result, r') ∧
    clang r' =
      applyChanges c
        (ppCallbacks_Finalize c
           (MergeNamespacesVisitor_TraverseDecl c (getTranslationUnitDecl Ctx)
              removedDecls w2)).
Proof.
  unfold HandleTranslationUnit.
  rewrite bind_run; simpl. rewrite bind_run; simpl. rewrite bind_run.
  unfold collect_dependencies. rewrite bind_run. unfold call at 1. simpl.
  destruct (DependenciesCollector_TraverseDecl c _ _ _ _) as [srcInfo w] eqn:Hdeps.
  rewrite bind_run, force_late_parsing_run; simpl.
  rewrite bind_run.
  match goal with |- context [find_used Ctx srcInfo ?r0] =>
    destruct (find_used_run Ctx srcInfo r0) as (used & srcInfo' & -> & Hused)
  end.
  simpl. rewrite bind_run. unfold call at 1. simpl.
  destruct (OptimizerVisitor_TraverseDecl c _ _ _ _) as [removed1 w1] eqn:Hvisit.
  rewrite bind_run. unfold call at 1. simpl.
  destruct (OptimizerVisitor_Finalize c _ _ _ _) as [removed2 w2] eqn:Hfinal.
  rewrite bind_run. unfold call at 1. simpl.
  rewrite bind_run. unfold call at 1. simpl.
  rewrite bind_run. unfold call at 1. simpl.
  unfold call. simpl.
  exists srcInfo, w, used, removed1, w1, removed2, w2. eexists _, _.
  split; [reflexivity|]. split; [exact Hused|].
  split; [exact Hvisit|]. split; [exact Hfinal|]. split; reflexivity.
Qed.

End ConsumerProps.
End ConsumerProps.
